(** * CAST O'GEAR solver ([ogear.py]): transition table and breadth-first search

    The module holds one constant, the dictionary [TRANSITIONS], and one
    function, [solve], a breadth-first search over gear states.  Python
    integers are unbounded, hence [Z]; the dictionary is a [gmap], its values
    and the [seen_states] set are [gset]s, the [deque] is a list used at both
    ends, and the raised [ValueError]s are an explicit outcome. *)

From stdpp Require Import gmap strings list fin_maps pretty.

Local Open Scope Z_scope.

(** ** Data model *)

(** [X, Y, Z = 'X', 'Y', 'Z'] : the three axis constants of the module.  The
    constructor [Z] hides the type of integers, written [BinNums.Z] below. *)
Inductive axis := X | Y | Z.

#[global] Instance axis_eq_dec : EqDecision axis.
Proof. solve_decision. Defined.

Definition axis_to_nat (a : axis) : nat :=
  match a with X => 0%nat | Y => 1%nat | Z => 2%nat end.

Definition axis_of_nat (n : nat) : option axis :=
  match n with
  | O => Some X
  | S O => Some Y
  | S (S O) => Some Z
  | _ => None
  end.

#[global] Instance axis_countable : Countable axis.
Proof.
  apply (inj_countable axis_to_nat axis_of_nat). by intros [].
Defined.

(** A position is the tuple [(side, axis)]; the side is any Python integer. *)
Definition position : Type := BinNums.Z * axis.

(** A transition is [((next_side, next_axis), tooth_incr, polarity_mult)]. *)
Definition transition : Type := position * BinNums.Z * BinNums.Z.

(** A state is [((side, axis), tooth, polarity)]. *)
Definition state : Type := position * BinNums.Z * BinNums.Z.

Definition state_position (s : state) : position := s.1.1.
Definition state_tooth (s : state) : BinNums.Z := s.1.2.
Definition state_polarity (s : state) : BinNums.Z := s.2.

Definition transition_target (t : transition) : position := t.1.1.
Definition transition_tooth_incr (t : transition) : BinNums.Z := t.1.2.
Definition transition_polarity_mult (t : transition) : BinNums.Z := t.2.

(** ** The transition table (lines 58-71) *)

Definition TRANSITIONS : gmap position (gset transition) :=
  list_to_map [
    ((1, X), {[ ((2, X), -1, 1); ((4, X),  1, 1); ((1, Y), 0, -1) ]});
    ((1, Y), {[ ((3, Y),  1, 1); ((1, X), 0, -1) ]});
    ((2, X), {[ ((1, X),  1, 1); ((2, Z), 0, -1) ]});
    ((2, Z), {[ ((5, Z), -1, 1); ((2, X), 0, -1) ]});
    ((3, Y), {[ ((1, Y), -1, 1); ((6, Y),  1, 1); ((3, Z), 0, 1) ]});
    ((3, Z), {[ ((4, Z),  1, 1); ((3, Y),  0, 1) ]});
    ((4, Z), {[ ((3, Z), -1, 1); ((5, Z),  1, 1); ((4, X), 0, 1) ]});
    ((4, X), {[ ((1, X), -1, 1); ((4, Z),  0, 1) ]});
    ((5, Z), {[ ((4, Z), -1, 1); ((2, Z),  1, 1); ((5, Y), 0, -1) ]});
    ((5, Y), {[ ((6, Y), -1, 1); ((5, Z),  0, -1) ]});
    ((6, Y), {[ ((5, Y),  1, 1); ((3, Y), -1, 1); ((6, X), 0, 1) ]});
    ((6, X), {[ ((6, Y),  0, 1) ]})
  ].

(** ** Exceptions and outcomes

    [solve] either returns a list of transitions or raises.  An exception is
    its class together with its message; the classes are the built-in ones a
    caller's [except] clause could tell apart here. *)

Inductive exception_class := ValueError | KeyError | TypeError.

Record exception := mk_exception {
  exc_class : exception_class;
  exc_message : string
}.

Inductive outcome :=
| Return (path : list transition)
| Raise (e : exception)
| OutOfFuel.

(** [repr] of an axis string and [str] of a position tuple, as the f-string
    of line 82 renders them: [(7, 'X')]. *)
Definition repr_axis (a : axis) : string :=
  match a with X => "'X'" | Y => "'Y'" | Z => "'Z'" end.

Definition str_position (p : position) : string :=
  "(" +:+ pretty p.1 +:+ ", " +:+ repr_axis p.2 +:+ ")".

Definition invalid_position_error (side_id : position) : exception :=
  mk_exception ValueError (str_position side_id +:+ " is an invalid initial position").

Definition no_solution_error : exception :=
  mk_exception ValueError
    "No solution found, check the provided initial and target positions".

(** ** The search (lines 74-97) *)

(** A queue entry is [(state, steps, path)]. *)
Definition entry : Type := state * BinNums.Z * list transition.

Definition entry_state (e : entry) : state := e.1.1.
Definition entry_path (e : entry) : list transition := e.2.

(** Lines 84-87: the successor of a state under a transition. *)
Definition next_state (st : state) (t : transition) : state :=
  let '(side_id, tooth, polarity) := st in
  let '(next_side_id, tooth_incr, polarity_mult) := t in
  let next_polarity := polarity * polarity_mult in
  let next_tooth := (tooth + (tooth_incr * polarity)) `mod` 5 in
  (next_side_id, next_tooth, next_polarity).

(** What the body of the [for] loop leaves behind: an early [return], or the
    updated queue and seen set. *)
Inductive expansion :=
| Found (next_path : list transition)
| Continue (to_process : list entry) (seen_states : gset state).

(** Lines 83-95, over the transitions still to be enumerated. *)
Fixpoint for_transitions (target st : state) (steps : BinNums.Z)
    (path : list transition) (ts : list transition)
    (to_process : list entry) (seen_states : gset state) : expansion :=
  match ts with
  | [] => Continue to_process seen_states
  | t :: ts =>
      let next := next_state st t in
      if decide (next ∈ seen_states) then
        for_transitions target st steps path ts to_process seen_states
      else
        let seen_states := {[next]} ∪ seen_states in
        let next_path := path ++ [t] in
        if decide (next = target) then Found next_path
        else for_transitions target st steps path ts
               (to_process ++ [(next, steps + 1, next_path)]) seen_states
  end.

Section Search.
(** Python enumerates a set in an order that depends on the hashes of its
    elements (string hashes change from run to run): the search is
    parametrised by that enumeration, any listing of a set's elements. *)
Variable set_iter : gset transition → list transition.

(** Lines 78-97; [fuel] bounds the number of iterations of the [while]. *)
Fixpoint while_loop (fuel : nat) (target : state)
    (to_process : list entry) (seen_states : gset state) : outcome :=
  match to_process with
  | [] => Raise no_solution_error
  | (st, steps, path) :: to_process =>
      match fuel with
      | O => OutOfFuel
      | S fuel =>
          let side_id := state_position st in
          match TRANSITIONS !! side_id with
          | None => Raise (invalid_position_error side_id)
          | Some ts =>
              match for_transitions target st steps path (set_iter ts)
                      to_process seen_states with
              | Found next_path => Return next_path
              | Continue to_process seen_states =>
                  while_loop fuel target to_process seen_states
              end
          end
      end
  end.

Definition solve_within (fuel : nat) (origin target : state) : outcome :=
  while_loop fuel target [(origin, 0, [])] {[origin]}.

(** 121 iterations are enough on every input ([solve_terminates]). *)
Definition solve (origin target : state) : outcome :=
  solve_within 121 origin target.
End Search.

(** ** Legal transitions and replay *)

Definition legal (s : state) (t : transition) : Prop :=
  ∃ ts, TRANSITIONS !! state_position s = Some ts ∧ t ∈ ts.

#[global] Instance legal_dec s t : Decision (legal s t).
Proof.
  unfold legal. destruct (TRANSITIONS !! state_position s) as [ts|] eqn:E.
  - destruct (decide (t ∈ ts)) as [Hin|Hin].
    + left. eauto.
    + right. intros (ts' & Heq & Hin'). congruence.
  - right. intros (ts' & Heq & _). congruence.
Defined.

(** Replaying a list of transitions from a state: each one must be in the
    table entry of the current position, and moves to [next_state]. *)
Fixpoint replay (s : state) (path : list transition) : option state :=
  match path with
  | [] => Some s
  | t :: path => if decide (legal s t) then replay (next_state s t) path else None
  end.

(** ** Well-formedness of the table *)

Definition valid_position (p : position) : Prop := is_Some (TRANSITIONS !! p).

Definition transition_ok (t : transition) : Prop :=
  valid_position (transition_target t) ∧
  (transition_tooth_incr t = -1 ∨ transition_tooth_incr t = 0 ∨ transition_tooth_incr t = 1) ∧
  (transition_polarity_mult t = 1 ∨ transition_polarity_mult t = -1).

Definition table_ok : Prop :=
  map_Forall (λ _ (ts : gset transition),
    (1 ≤ size ts ≤ 3)%nat ∧ set_Forall transition_ok ts) TRANSITIONS.

(** A well-formed gear state: tooth 0 to 4, polarity 1 or -1. *)
Definition well_formed (s : state) : Prop :=
  0 ≤ state_tooth s ≤ 4 ∧ (state_polarity s = 1 ∨ state_polarity s = -1).

(** ** Invariants of the search *)

(** Every state the search can ever put in [seen_states]: the origin, and
    the table's positions with a tooth from 0 to 4 and the origin's polarity
    or its opposite. *)
Definition grid (pol : BinNums.Z) : list state :=
  p ← elements (dom TRANSITIONS); k ← [0; 1; 2; 3; 4]; s ← [pol; - pol]; [(p, k, s)].

Definition universe (origin : state) : gset state :=
  {[origin]} ∪ list_to_set (grid (state_polarity origin)).

(** [path] leads from [origin] to [s] and no legal sequence does so in fewer
    transitions. *)
Definition shortest (origin s : state) (path : list transition) : Prop :=
  replay origin path = Some s ∧
  ∀ path', replay origin path' = Some s → (length path ≤ length path')%nat.

(** The breadth-first invariant at the head of the [while] loop, and, with
    [pending] describing the transitions of the dequeued state not yet
    enumerated, inside the [for] loop.  [d] is the length of the paths at the
    front of the queue. *)
Record search_inv (origin target : state) (d : nat)
    (pending : state → transition → Prop)
    (to_process : list entry) (seen_states : gset state) : Prop := {
  inv_origin : origin ∈ seen_states;
  inv_universe : seen_states ⊆ universe origin;
  inv_fresh : ∀ s, s ∈ seen_states → s ≠ origin →
    s ≠ target ∧ valid_position (state_position s);
  inv_queue : Forall (λ e, entry_state e ∈ seen_states ∧
                           shortest origin (entry_state e) (entry_path e)) to_process;
  inv_levels : ∃ l1 l2, to_process = l1 ++ l2 ∧
    Forall (λ e, length (entry_path e) = d) l1 ∧
    Forall (λ e, length (entry_path e) = S d) l2;
  inv_closed : ∀ z t, z ∈ seen_states → z ∉ entry_state <$> to_process →
    legal z t → next_state z t ∈ seen_states ∨ pending z t;
  inv_nodup : NoDup (entry_state <$> to_process)
}.

Definition no_pending : state → transition → Prop := λ _ _, False.

Definition pending_of (st : state) (ts : list transition) : state → transition → Prop :=
  λ z t, z = st ∧ t ∈ ts.

Record expand_inv (origin target : state) (st : state) (path ts : list transition)
    (to_process : list entry) (seen_states : gset state) : Prop := {
  exp_inv : search_inv origin target (length path) (pending_of st ts)
              to_process seen_states;
  exp_seen : st ∈ seen_states;
  exp_shortest : shortest origin st path;
  exp_notin : st ∉ entry_state <$> to_process;
  exp_legal : ∀ t, t ∈ ts → legal st t
}.

(** The configurations [(to_process, seen_states)] that the [while] loop of
    [solve origin target] goes through, taken at the loop test. *)
Inductive loop_config (set_iter : gset transition → list transition)
    (origin target : state) : list entry → gset state → Prop :=
| config_init : loop_config set_iter origin target [(origin, 0, [])] {[origin]}
| config_next st steps path to_process seen_states ts to_process' seen_states' :
    loop_config set_iter origin target ((st, steps, path) :: to_process) seen_states →
    TRANSITIONS !! state_position st = Some ts →
    for_transitions target st steps path (set_iter ts) to_process seen_states
      = Continue to_process' seen_states' →
    loop_config set_iter origin target to_process' seen_states'.

(** What the [while] loop establishes from the invariant, for each kind of
    outcome; [fuel_left] is what running out of fuel would mean. *)
Definition outcome_spec (origin target : state) (fuel_left : Prop)
    (r : outcome) : Prop :=
  match r with
  | Return p => p ≠ [] ∧ shortest origin target p
  | Raise e =>
      (e = no_solution_error ∧
       ∀ p, replay origin p = Some target → target = origin) ∨
      (e = invalid_position_error (state_position origin) ∧
       ¬ valid_position (state_position origin))
  | OutOfFuel => fuel_left
  end.

#[global] Instance valid_position_dec p : Decision (valid_position p).
Proof. unfold valid_position. apply _. Defined.

(** The default arguments of [parse_args] (lines 102-113): the puzzle as it
    is sold, and its solved position. *)
Definition default_origin : state := ((1, X), 0, 1).
Definition default_target : state := ((6, X), 4, -1).

(** ** Reachability and the geometry of the table *)

Definition reachable (s s' : state) : Prop := ∃ path, replay s path = Some s'.

(** Whether an outcome is a returned path. *)
Definition returns (r : outcome) : bool :=
  match r with Return _ => true | _ => false end.

(** The axis a side of the cube is perpendicular to, after the drawing of
    lines 16-28: side 1 is the top and side 6 the bottom, side 2 the front
    and side 4 the back, side 3 the left and side 5 the right. *)
Definition normal_axis (side : BinNums.Z) : option axis :=
  match side with
  | 1 | 6 => Some Z
  | 2 | 4 => Some Y
  | 3 | 5 => Some X
  | _ => None
  end.

(** Lines 51-57: a transition out of position [p] is a rotation on the same
    side (no tooth change) or a move to an adjacent side along the same axis
    (tooth change of 1 or -1, polarity kept). *)
Definition rotation_or_move (p : position) (t : transition) : Prop :=
  (transition_tooth_incr t = 0 ∧
   (transition_target t).1 = p.1 ∧ (transition_target t).2 ≠ p.2) ∨
  ((transition_tooth_incr t = 1 ∨ transition_tooth_incr t = -1) ∧
   transition_polarity_mult t = 1 ∧
   (transition_target t).2 = p.2 ∧
   normal_axis (transition_target t).1 ≠ normal_axis p.1).

(** The transition that undoes [t] taken from position [p]. *)
Definition inverse_transition (p : position) (t : transition) : transition :=
  (p, - transition_tooth_incr t * transition_polarity_mult t,
   transition_polarity_mult t).

(** Two transitions are told apart by what line 124-127 print of them:
    whether they are rotations, and the side they lead to. *)
Definition same_instruction (t t' : transition) : Prop :=
  (transition_tooth_incr t = 0 ∧ transition_tooth_incr t' = 0) ∨
  (transition_tooth_incr t ≠ 0 ∧ transition_tooth_incr t' ≠ 0 ∧
   (transition_target t).1 = (transition_target t').1).

(** ** The command line (lines 100-116) and the program (lines 119-127) *)

(** The namespace [parser.parse_args()] returns: argparse converts the sides
    and teeth with [int] and keeps the polarities as strings. *)
Record Namespace := mk_Namespace {
  initial_side : BinNums.Z;
  initial_axis : axis;
  initial_tooth : BinNums.Z;
  initial_polarity : string;
  target_side : BinNums.Z;
  target_axis : axis;
  target_tooth : BinNums.Z;
  target_polarity : string
}.

(** The [choices] argparse enforces (it exits on any other value). *)
Definition choices_ok (args : Namespace) : Prop :=
  1 ≤ initial_side args < 7 ∧ 0 ≤ initial_tooth args < 5 ∧
  (initial_polarity args = "T" ∨ initial_polarity args = "F") ∧
  1 ≤ target_side args < 7 ∧ 0 ≤ target_tooth args < 5 ∧
  (target_polarity args = "T" ∨ target_polarity args = "F").

Definition str_axis (a : axis) : string :=
  match a with X => "X" | Y => "Y" | Z => "Z" end.

(** Lines 112-116 of [parse_args]: the two states returned and the two lines
    printed. *)
Definition parse_args (args : Namespace) : (state * state) * list string :=
  let origin : state :=
    ((initial_side args, initial_axis args), initial_tooth args,
     if decide (initial_polarity args = "T") then 1 else -1) in
  let target : state :=
    ((target_side args, target_axis args), target_tooth args,
     if decide (target_polarity args = "T") then 1 else -1) in
  ((origin, target),
   ["Origin : side " +:+ pretty (initial_side args) +:+ " axis "
      +:+ str_axis (initial_axis args) +:+ " tooth "
      +:+ pretty (initial_tooth args) +:+ " polarity " +:+ initial_polarity args;
    "Target : side " +:+ pretty (target_side args) +:+ " axis "
      +:+ str_axis (target_axis args) +:+ " tooth "
      +:+ pretty (target_tooth args) +:+ " polarity " +:+ target_polarity args]).

(** Lines 123-127: the line printed for step [i] of the path. *)
Definition print_step (i : nat) (step : transition) : string :=
  let '((side_id, _), tooth_incr, _) := step in
  if decide (tooth_incr = 0) then
    "Step " +:+ pretty (i + 1)%nat +:+ ": Rotate"
  else
    "Step " +:+ pretty (i + 1)%nat +:+ ": Move to side " +:+ pretty side_id.

(** Lines 122-127: the lines printed for a path. *)
Definition print_path (path : list transition) : list string :=
  imap print_step path.

(** What a run of the program leaves: its standard output, and the
    exception that ended it if one was raised. *)
Inductive run :=
| Exit (stdout : list string)
| Traceback (stdout : list string) (e : exception)
| Unfinished.

(** Lines 119-127. *)
Definition main (set_iter : gset transition → list transition)
    (args : Namespace) : run :=
  let '((origin, target), printed) := parse_args args in
  match solve set_iter origin target with
  | Return path => Exit (printed ++ print_path path)
  | Raise e => Traceback printed e
  | OutOfFuel => Unfinished
  end.

(** * Properties *)

(** ** The table *)

Lemma TRANSITIONS_size : size TRANSITIONS = 12%nat.
Proof. vm_compute. reflexivity. Qed.

Lemma TRANSITIONS_ok : table_ok.
Proof.
  unfold table_ok, transition_ok, valid_position.
  apply (bool_decide_unpack _). vm_compute. reflexivity.
Qed.

Lemma legal_transition_ok s t : legal s t → transition_ok t.
Proof.
  intros (ts & Hts & Hin).
  destruct (TRANSITIONS_ok _ _ Hts) as [_ Hall]. by apply Hall.
Qed.

Lemma legal_valid_position s t : legal s t → valid_position (state_position s).
Proof. intros (ts & Hts & _). unfold valid_position. eauto. Qed.

Lemma next_state_position s t : state_position (next_state s t) = transition_target t.
Proof. by destruct s as [[? ?] ?], t as [[? ?] ?]. Qed.

Lemma next_state_tooth s t :
  state_tooth (next_state s t)
  = (state_tooth s + transition_tooth_incr t * state_polarity s) `mod` 5.
Proof. by destruct s as [[? ?] ?], t as [[? ?] ?]. Qed.

Lemma next_state_polarity s t :
  state_polarity (next_state s t) = state_polarity s * transition_polarity_mult t.
Proof. by destruct s as [[? ?] ?], t as [[? ?] ?]. Qed.

(** ** Replay *)

Lemma replay_nil s : replay s [] = Some s.
Proof. reflexivity. Qed.

Lemma replay_cons s t p :
  replay s (t :: p) = if decide (legal s t) then replay (next_state s t) p else None.
Proof. reflexivity. Qed.

Lemma replay_cons_legal s t p :
  legal s t → replay s (t :: p) = replay (next_state s t) p.
Proof. intros Hl. rewrite replay_cons. by rewrite decide_True. Qed.

Lemma replay_app s p q : replay s (p ++ q) = replay s p ≫= λ s', replay s' q.
Proof.
  revert s. induction p as [|t p IH]; intros s.
  - by rewrite app_nil_l, replay_nil.
  - rewrite <- app_comm_cons, !replay_cons.
    case_decide; [apply IH|done].
Qed.

Lemma replay_snoc s p s' t :
  replay s p = Some s' → legal s' t → replay s (p ++ [t]) = Some (next_state s' t).
Proof.
  intros Hp Hl. rewrite replay_app, Hp.
  change (replay s' [t] = Some (next_state s' t)).
  by rewrite replay_cons_legal, replay_nil.
Qed.

(** A replay that starts inside a set and ends outside of it leaves the set
    at some transition. *)
Lemma replay_exit (seen : gset state) s p x :
  replay s p = Some x → s ∈ seen → x ∉ seen →
  ∃ p1 v t p2, p = p1 ++ t :: p2 ∧ replay s p1 = Some v ∧ v ∈ seen ∧
               legal v t ∧ next_state v t ∉ seen.
Proof.
  revert s. induction p as [|t p IH]; intros s Hr Hs Hx.
  - rewrite replay_nil in Hr. by simplify_eq.
  - rewrite replay_cons in Hr. case_decide as Hl; [|done].
    destruct (decide (next_state s t ∈ seen)) as [Hin|Hnin].
    + destruct (IH _ Hr Hin Hx) as (p1 & v & t' & p2 & -> & Hr1 & Hv & Hl' & Hn).
      exists (t :: p1), v, t', p2. split; [done|].
      by rewrite replay_cons_legal.
    + by exists [], s, t, p.
Qed.

(** A set that holds the start and is closed under legal transitions holds
    every state a replay can end in. *)
Lemma replay_closed (seen : gset state) s p x :
  (∀ z t, z ∈ seen → legal z t → next_state z t ∈ seen) →
  replay s p = Some x → s ∈ seen → x ∈ seen.
Proof.
  intros Hclosed Hr Hs. destruct (decide (x ∈ seen)) as [|Hx]; [done|].
  destruct (replay_exit _ _ _ _ Hr Hs Hx) as (? & v & t & ? & _ & _ & Hv & Hl & Hn).
  destruct Hn. by apply Hclosed.
Qed.

(** ** The universe of states *)

Lemma elem_of_grid pol (s : state) :
  s ∈ grid pol ↔
  valid_position (state_position s) ∧ 0 ≤ state_tooth s ≤ 4 ∧
  (state_polarity s = pol ∨ state_polarity s = - pol).
Proof.
  destruct s as [[p k] c]. unfold grid, valid_position, state_position,
    state_tooth, state_polarity. cbn [fst snd].
  rewrite list_elem_of_bind. split.
  - intros (p' & Hin & Hp'). apply elem_of_elements, elem_of_dom in Hp'.
    apply list_elem_of_bind in Hin as (k' & Hin & Hk').
    apply list_elem_of_bind in Hin as (c' & Hin & Hc').
    apply list_elem_of_singleton in Hin. simplify_eq.
    split; [done|]. split.
    + repeat (apply elem_of_cons in Hk' as [-> | Hk']; [lia|]).
      by apply elem_of_nil in Hk'.
    + repeat (apply elem_of_cons in Hc' as [-> | Hc']; [tauto|]).
      by apply elem_of_nil in Hc'.
  - intros (Hp & Hk & Hc). exists p. split; [|by apply elem_of_elements, elem_of_dom].
    apply list_elem_of_bind. exists k. split.
    + apply list_elem_of_bind. exists c. split; [by apply list_elem_of_singleton|].
      rewrite !elem_of_cons. tauto.
    + rewrite !elem_of_cons. lia.
Qed.

Lemma length_list_bind {A B} (f : A → list B) (n : nat) (l : list A) :
  (∀ x, length (f x) = n) → length (l ≫= f) = (length l * n)%nat.
Proof.
  intros Hf. induction l as [|x l IH]; [done|].
  change ((x :: l) ≫= f) with (f x ++ (l ≫= f)).
  rewrite length_app, IH, Hf. cbn [length]. lia.
Qed.

Lemma length_grid pol : length (grid pol) = 120%nat.
Proof.
  unfold grid. rewrite (length_list_bind _ 10); [|done].
  change (length (elements (dom TRANSITIONS))) with (size (dom TRANSITIONS)).
  by rewrite size_dom, TRANSITIONS_size.
Qed.

Lemma size_list_to_set_le (l : list state) :
  (size (list_to_set l : gset state) ≤ length l)%nat.
Proof.
  induction l as [|x l IH]; [by rewrite list_to_set_nil, size_empty|].
  rewrite list_to_set_cons, size_union_alt, size_singleton. cbn [length].
  assert (size ((list_to_set l : gset state) ∖ {[x]}) ≤ size (list_to_set l : gset state))%nat
    by (apply subseteq_size; intros ?; rewrite elem_of_difference; tauto).
  lia.
Qed.

Lemma universe_size origin : (size (universe origin) ≤ 121)%nat.
Proof.
  unfold universe. rewrite size_union_alt, size_singleton.
  pose proof (size_list_to_set_le (grid (state_polarity origin))) as Hle.
  rewrite length_grid in Hle.
  assert (size ((list_to_set (grid (state_polarity origin)) : gset state) ∖ {[origin]})
          ≤ size (list_to_set (grid (state_polarity origin)) : gset state))%nat
    by (apply subseteq_size; intros ?; rewrite elem_of_difference; tauto).
  lia.
Qed.

(** With a valid position and a tooth from 0 to 4 the origin is one of the
    120 grid states. *)
Lemma universe_size_in_range origin :
  valid_position (state_position origin) → 0 ≤ state_tooth origin ≤ 4 →
  (size (universe origin) ≤ 120)%nat.
Proof.
  intros Hp Hk.
  assert (universe origin ⊆ list_to_set (grid (state_polarity origin))) as Hsub.
  { unfold universe. apply union_subseteq. split; [|done].
    apply singleton_subseteq_l, elem_of_list_to_set, elem_of_grid. tauto. }
  apply subseteq_size in Hsub.
  pose proof (size_list_to_set_le (grid (state_polarity origin))) as Hle.
  rewrite length_grid in Hle. lia.
Qed.

Lemma universe_origin origin : origin ∈ universe origin.
Proof. unfold universe. by apply elem_of_union_l, elem_of_singleton. Qed.

Lemma universe_polarity origin s :
  s ∈ universe origin →
  state_polarity s = state_polarity origin ∨ state_polarity s = - state_polarity origin.
Proof.
  unfold universe. rewrite elem_of_union, elem_of_singleton, elem_of_list_to_set, elem_of_grid.
  intros [-> | (_ & _ & H)]; tauto.
Qed.

(** The universe is closed under legal transitions. *)
Lemma universe_closed origin s t :
  s ∈ universe origin → legal s t → next_state s t ∈ universe origin.
Proof.
  intros Hs Hl. apply universe_polarity in Hs.
  destruct (legal_transition_ok _ _ Hl) as (Htgt & _ & Hmult).
  unfold universe. apply elem_of_union_r, elem_of_list_to_set, elem_of_grid.
  rewrite next_state_position, next_state_tooth, next_state_polarity.
  split; [done|]. split.
  - pose proof (Z.mod_pos_bound
      (state_tooth s + transition_tooth_incr t * state_polarity s) 5). lia.
  - destruct Hs as [-> | ->], Hmult as [-> | ->]; lia.
Qed.

(** ** Unfolding equations of the two loops *)

Lemma for_transitions_nil target st steps path q seen :
  for_transitions target st steps path [] q seen = Continue q seen.
Proof. reflexivity. Qed.

Lemma for_transitions_cons target st steps path t ts q seen :
  for_transitions target st steps path (t :: ts) q seen =
    if decide (next_state st t ∈ seen) then
      for_transitions target st steps path ts q seen
    else if decide (next_state st t = target) then Found (path ++ [t])
    else for_transitions target st steps path ts
           (q ++ [(next_state st t, steps + 1, path ++ [t])])
           ({[next_state st t]} ∪ seen).
Proof. reflexivity. Qed.

Lemma while_loop_nil set_iter fuel target seen :
  while_loop set_iter fuel target [] seen = Raise no_solution_error.
Proof. by destruct fuel. Qed.

Lemma while_loop_out set_iter target e q seen :
  while_loop set_iter 0 target (e :: q) seen = OutOfFuel.
Proof. by destruct e as [[? ?] ?]. Qed.

Lemma while_loop_step set_iter fuel target st steps path q seen :
  while_loop set_iter (S fuel) target ((st, steps, path) :: q) seen =
    match TRANSITIONS !! state_position st with
    | None => Raise (invalid_position_error (state_position st))
    | Some ts =>
        match for_transitions target st steps path (set_iter ts) q seen with
        | Found next_path => Return next_path
        | Continue q' seen' => while_loop set_iter fuel target q' seen'
        end
    end.
Proof. reflexivity. Qed.

(** ** The breadth-first invariant *)

Section Invariant.
Variable set_iter : gset transition → list transition.
Hypothesis set_iter_perm : ∀ ts, set_iter ts ≡ₚ elements ts.
Variables origin target : state.

Lemma elem_of_set_iter t ts : t ∈ set_iter ts ↔ t ∈ ts.
Proof. rewrite set_iter_perm. apply elem_of_elements. Qed.

Lemma search_inv_init :
  search_inv origin target 0 no_pending [(origin, 0, [])] {[origin]}.
Proof.
  split.
  - by apply elem_of_singleton.
  - apply singleton_subseteq_l, universe_origin.
  - intros s Hs Hne. by apply elem_of_singleton in Hs.
  - apply Forall_singleton. split; [by apply elem_of_singleton|].
    split; [apply replay_nil|]. intros; cbn [entry_path snd length]. lia.
  - exists [(origin, 0, [])], []. by repeat constructor.
  - intros z t Hz Hnq. apply elem_of_singleton in Hz as ->.
    destruct Hnq. apply list_elem_of_here.
  - apply NoDup_singleton.
Qed.

(** Inside the [for] loop, every state not yet seen is further from the
    origin than the dequeued state. *)
Lemma unseen_far st path ts q seen p x :
  expand_inv origin target st path ts q seen →
  replay origin p = Some x → x ∉ seen →
  (S (length path) ≤ length p)%nat.
Proof.
  intros [[Ho _ _ Hq (l1 & l2 & Hl & Hl1 & Hl2) Hc _] _ [_ Hmin] _ _] Hr Hx.
  destruct (replay_exit _ _ _ _ Hr Ho Hx)
    as (p1 & v & t & p2 & -> & Hr1 & Hv & Hlegal & Hn).
  rewrite length_app. cbn [length].
  cut (length path ≤ length p1)%nat; [lia|].
  destruct (decide (v ∈ entry_state <$> q)) as [Hin|Hnin].
  - apply list_elem_of_fmap in Hin as (e & -> & He).
    rewrite Forall_forall in Hq. destruct (Hq _ He) as [_ [_ Hshort]].
    specialize (Hshort _ Hr1).
    assert (length path ≤ length (entry_path e))%nat; [|lia].
    rewrite Hl in He. apply elem_of_app in He as [He|He].
    + rewrite Forall_forall in Hl1. rewrite (Hl1 _ He). lia.
    + rewrite Forall_forall in Hl2. rewrite (Hl2 _ He). lia.
  - destruct (Hc _ _ Hv Hnin Hlegal) as [?|[-> _]]; [done|].
    by apply Hmin.
Qed.

Lemma expand_inv_skip st path t ts q seen :
  expand_inv origin target st path (t :: ts) q seen →
  next_state st t ∈ seen →
  expand_inv origin target st path ts q seen.
Proof.
  intros [[Ho Hu Hf Hq Hl Hc Hn] Hs Hsh Hnq Hlegal] Hin.
  split; [split|..]; try done.
  - intros z t' Hz Hzq Hl'.
    destruct (Hc _ _ Hz Hzq Hl') as [?|[-> Ht']]; [by left|].
    apply elem_of_cons in Ht' as [-> | Ht']; [by left|by right].
  - intros t' Ht'. apply Hlegal. by apply list_elem_of_further.
Qed.

Lemma expand_inv_enqueue st steps path t ts q seen :
  expand_inv origin target st path (t :: ts) q seen →
  next_state st t ∉ seen → next_state st t ≠ target →
  expand_inv origin target st path ts
    (q ++ [(next_state st t, steps + 1, path ++ [t])])
    ({[next_state st t]} ∪ seen).
Proof.
  intros Hinv Hnin Hnt.
  pose proof (λ p x, unseen_far _ _ _ _ _ p x Hinv) as Hfar.
  destruct Hinv as [[Ho Hu Hf Hq (l1 & l2 & Hl & Hl1 & Hl2) Hc Hn] Hs Hsh Hnq Hlegal].
  assert (legal st t) as Hlt by apply Hlegal, list_elem_of_here.
  assert (∀ e, e ∈ q → entry_state e ≠ next_state st t) as Hq_ne.
  { intros e He Heq. rewrite Forall_forall in Hq.
    destruct (Hq _ He) as [Hin _]. by rewrite Heq in Hin. }
  split; [split|..].
  - by apply elem_of_union_r.
  - apply union_subseteq. split; [|done].
    apply singleton_subseteq_l, universe_closed; [by apply Hu|done].
  - intros s Hin Hne. apply elem_of_union in Hin as [Hin|Hin]; [|by apply Hf].
    apply elem_of_singleton in Hin as ->. split; [done|].
    rewrite next_state_position. by destruct (legal_transition_ok _ _ Hlt).
  - apply Forall_app. split.
    + eapply Forall_impl; [exact Hq|]. intros e [? ?].
      split; [by apply elem_of_union_r|done].
    + apply Forall_singleton. cbn [entry_state entry_path fst snd].
      split; [by apply elem_of_union_l, elem_of_singleton|].
      destruct Hsh as [Hrep _]. split; [by apply replay_snoc|].
      intros p' Hp'. rewrite length_app. cbn [length].
      specialize (Hfar _ _ Hp' Hnin). lia.
  - exists l1, (l2 ++ [(next_state st t, steps + 1, path ++ [t])]).
    split; [by rewrite Hl, app_assoc|]. split; [done|].
    apply Forall_app. split; [done|]. apply Forall_singleton.
    cbn [entry_path snd]. rewrite length_app. cbn [length]. lia.
  - intros z t' Hz Hzq Hl'. rewrite fmap_app, not_elem_of_app in Hzq.
    destruct Hzq as [Hzq Hz'].
    apply elem_of_union in Hz as [Hz|Hz].
    { apply elem_of_singleton in Hz as ->. destruct Hz'. apply list_elem_of_here. }
    destruct (Hc _ _ Hz Hzq Hl') as [?|[-> Ht']]; [left; by apply elem_of_union_r|].
    apply elem_of_cons in Ht' as [-> | Ht']; [|by right].
    left. by apply elem_of_union_l, elem_of_singleton.
  - rewrite fmap_app. apply NoDup_app. split; [done|]. split; [|apply NoDup_singleton].
    intros s Hsq Hs'. apply list_elem_of_singleton in Hs'.
    apply list_elem_of_fmap in Hsq as (e & -> & He). by apply (Hq_ne e).
  - by apply elem_of_union_r.
  - done.
  - rewrite fmap_app, not_elem_of_app. split; [done|].
    intros Heq%list_elem_of_singleton. cbn [entry_state fst] in Heq.
    by rewrite <- Heq in Hnin.
  - intros t' Ht'. apply Hlegal. by apply list_elem_of_further.
Qed.

Lemma expand_inv_done st path q seen :
  expand_inv origin target st path [] q seen →
  search_inv origin target (length path) no_pending q seen.
Proof.
  intros [[Ho Hu Hf Hq Hl Hc Hn] _ _ _ _]. split; try done.
  intros z t Hz Hzq Hl'. destruct (Hc _ _ Hz Hzq Hl') as [?|[_ Ht]]; [by left|].
  by apply elem_of_nil in Ht.
Qed.

Lemma search_inv_dequeue d st steps path ts q seen :
  search_inv origin target d no_pending ((st, steps, path) :: q) seen →
  TRANSITIONS !! state_position st = Some ts →
  expand_inv origin target st path (set_iter ts) q seen.
Proof.
  intros [Ho Hu Hf Hq (l1 & l2 & Hl & Hl1 & Hl2) Hc Hn] Hts.
  apply Forall_cons in Hq as [[Hs Hsh] Hq].
  rewrite fmap_cons in Hn. apply NoDup_cons in Hn as [Hnq Hn].
  cbn [entry_state entry_path fst snd] in *.
  split; [split|..]; try done.
  - destruct l1 as [|e l1].
    + rewrite app_nil_l in Hl. subst l2. apply Forall_cons in Hl2 as [Hlen Hl2].
      cbn [entry_path snd] in Hlen. rewrite Hlen.
      exists q, []. rewrite app_nil_r. by repeat split.
    + rewrite <- app_comm_cons in Hl. injection Hl as <- ->.
      apply Forall_cons in Hl1 as [Hlen Hl1]. cbn [entry_path snd] in Hlen.
      rewrite Hlen. by exists l1, l2.
  - intros z t Hz Hzq Hl'. destruct (decide (z = st)) as [->|Hne].
    + right. split; [done|]. apply elem_of_set_iter.
      destruct Hl' as (ts' & Hts' & Hin). by simplify_eq.
    + destruct (Hc z t Hz) as [?|[]]; [|done|by left].
      rewrite fmap_cons. apply not_elem_of_cons. by split.
  - intros t Ht. exists ts. split; [done|]. by apply elem_of_set_iter.
Qed.

(** What the [for] loop establishes: an early return is a shortest path to
    the target; otherwise the invariant holds again and every state added
    to the queue was added to the seen set. *)
Lemma for_transitions_spec st steps path ts q seen :
  expand_inv origin target st path ts q seen →
  match for_transitions target st steps path ts q seen with
  | Found p => p ≠ [] ∧ shortest origin target p
  | Continue q' seen' =>
      search_inv origin target (length path) no_pending q' seen' ∧
      (length q' + size seen = length q + size seen')%nat
  end.
Proof.
  revert q seen. induction ts as [|t ts IH]; intros q seen Hinv.
  - rewrite for_transitions_nil. split; [by apply (expand_inv_done st)|done].
  - rewrite for_transitions_cons.
    destruct (decide (next_state st t ∈ seen)) as [Hin|Hnin].
    { apply IH. by eapply expand_inv_skip. }
    destruct (decide (next_state st t = target)) as [Heq|Hne].
    + split; [by destruct path|]. split.
      * rewrite <- Heq.
        destruct (exp_shortest _ _ _ _ _ _ _ Hinv) as [Hrep _].
        apply replay_snoc; [done|].
        apply (exp_legal _ _ _ _ _ _ _ Hinv), list_elem_of_here.
      * intros p' Hp'. rewrite length_app. cbn [length].
        rewrite <- Heq in Hp'.
        pose proof (unseen_far _ _ _ _ _ _ _ Hinv Hp' Hnin). lia.
    + pose proof (expand_inv_enqueue _ steps _ _ _ _ _ Hinv Hnin Hne) as Hinv'.
      specialize (IH _ _ Hinv').
      destruct (for_transitions target st steps path ts _ _) as [p|q' seen'];
        [done|].
      destruct IH as [Hs Hlen]. split; [done|].
      rewrite length_app in Hlen. cbn [length] in Hlen.
      rewrite size_union, size_singleton in Hlen; [lia|].
      by apply disjoint_singleton_l.
Qed.

(** The invariant holds in every configuration of the [while] loop. *)
Lemma loop_config_inv q seen :
  loop_config set_iter origin target q seen →
  ∃ d, search_inv origin target d no_pending q seen.
Proof.
  induction 1 as [|st steps path q seen ts q' seen' _ [d IH] Hts Hfor].
  - exists 0%nat. apply search_inv_init.
  - pose proof (for_transitions_spec st steps path (set_iter ts) q seen
      (search_inv_dequeue _ _ _ _ _ _ _ IH Hts)) as Hspec.
    rewrite Hfor in Hspec. exists (length path). apply Hspec.
Qed.

Lemma while_loop_spec fuel d q seen :
  search_inv origin target d no_pending q seen →
  outcome_spec origin target (fuel + size seen < length q + size (universe origin))%nat
    (while_loop set_iter fuel target q seen).
Proof.
  revert d q seen. induction fuel as [|fuel IH]; intros d q seen Hinv.
  - destruct q as [|e q].
    + rewrite while_loop_nil. left. split; [done|].
      intros p Hp. destruct (decide (target = origin)) as [|Hne]; [done|].
      destruct Hinv as [Ho _ Hf _ _ Hc _].
      assert (target ∈ seen) as Ht.
      { eapply replay_closed; [|exact Hp|exact Ho].
        intros z t Hz Hl. destruct (Hc z t Hz) as [?|[]]; [|done|done].
        apply not_elem_of_nil. }
      by destruct (Hf _ Ht Hne).
    + rewrite while_loop_out.
      pose proof (subseteq_size _ _ (inv_universe _ _ _ _ _ _ Hinv)).
      cbn [outcome_spec length]. lia.
  - destruct q as [|[[st steps] path] q].
    + rewrite while_loop_nil. left. split; [done|].
      intros p Hp. destruct (decide (target = origin)) as [|Hne]; [done|].
      destruct Hinv as [Ho _ Hf _ _ Hc _].
      assert (target ∈ seen) as Ht.
      { eapply replay_closed; [|exact Hp|exact Ho].
        intros z t Hz Hl. destruct (Hc z t Hz) as [?|[]]; [|done|done].
        apply not_elem_of_nil. }
      by destruct (Hf _ Ht Hne).
    + rewrite while_loop_step.
      destruct (TRANSITIONS !! state_position st) as [ts|] eqn:Hts.
      * pose proof (for_transitions_spec st steps path (set_iter ts) q seen
          (search_inv_dequeue _ _ _ _ _ _ _ Hinv Hts)) as Hspec.
        destruct (for_transitions target st steps path (set_iter ts) q seen)
          as [p|q' seen']; [done|].
        destruct Hspec as [Hinv' Hlen]. specialize (IH _ _ _ Hinv').
        destruct (while_loop set_iter fuel target q' seen'); [done|done|].
        cbn [outcome_spec length] in *. lia.
      * right. destruct Hinv as [_ _ Hf Hq _ _ _].
        apply Forall_cons in Hq as [[Hs _] _]. cbn [entry_state fst] in Hs.
        destruct (decide (st = origin)) as [->|Hne].
        -- split; [done|]. unfold valid_position. rewrite Hts. by intros [? ?].
        -- destruct (Hf _ Hs Hne) as [_ [? Hv]]. congruence.
Qed.

Lemma solve_within_spec fuel :
  outcome_spec origin target (fuel < size (universe origin))%nat
    (solve_within set_iter fuel origin target).
Proof.
  unfold solve_within.
  pose proof (while_loop_spec fuel _ _ _ search_inv_init) as Hspec.
  destruct (while_loop set_iter fuel target _ _); [done|done|].
  cbn [outcome_spec length] in *. rewrite size_singleton in Hspec. lia.
Qed.

(** More fuel does not change an outcome that did not run out of it. *)
Lemma while_loop_more_fuel fuel fuel' q seen :
  (fuel ≤ fuel')%nat →
  while_loop set_iter fuel target q seen ≠ OutOfFuel →
  while_loop set_iter fuel' target q seen = while_loop set_iter fuel target q seen.
Proof.
  revert fuel' q seen. induction fuel as [|fuel IH]; intros fuel' q seen Hle Hne.
  - destruct q as [|e q]; [by rewrite !while_loop_nil|].
    by rewrite while_loop_out in Hne.
  - destruct fuel' as [|fuel']; [lia|].
    destruct q as [|[[st steps] path] q]; [by rewrite !while_loop_nil|].
    rewrite !while_loop_step in *.
    destruct (TRANSITIONS !! state_position st) as [ts|]; [|done].
    destruct (for_transitions target st steps path (set_iter ts) q seen)
      as [p|q' seen']; [done|].
    apply IH; [lia|done].
Qed.
End Invariant.

(** ** What the [for] loop enqueues, without any invariant *)

Lemma for_transitions_enqueues target st steps path ts q seen q' seen' :
  for_transitions target st steps path ts q seen = Continue q' seen' →
  ∃ new, q' = q ++ new ∧
         seen' = list_to_set (entry_state <$> new) ∪ seen ∧
         NoDup (entry_state <$> new) ∧
         ∀ e, e ∈ new →
              (entry_state e ∉ seen) ∧
              (∃ t, t ∈ ts ∧ e = (next_state st t, steps + 1, path ++ [t])).
Proof.
  revert q seen. induction ts as [|t ts IH]; intros q seen Hfor.
  - rewrite for_transitions_nil in Hfor. injection Hfor as <- <-.
    exists []. rewrite app_nil_r, fmap_nil, list_to_set_nil, union_empty_l_L.
    split; [done|]. split; [done|]. split; [apply NoDup_nil_2|].
    intros e He. by apply elem_of_nil in He.
  - rewrite for_transitions_cons in Hfor.
    destruct (decide (next_state st t ∈ seen)) as [Hin|Hnin].
    { destruct (IH _ _ Hfor) as (new & ? & ? & ? & Hnew).
      exists new. split; [done|]. split; [done|]. split; [done|].
      intros e He. destruct (Hnew _ He) as [? (t' & ? & ?)]. split; [done|].
      exists t'. split; [by apply list_elem_of_further|done]. }
    destruct (decide (next_state st t = target)) as [|Hne]; [done|].
    destruct (IH _ _ Hfor) as (new & -> & -> & Hnd & Hnew).
    exists ((next_state st t, steps + 1, path ++ [t]) :: new).
    split; [by rewrite <- app_assoc|]. split.
    { rewrite fmap_cons, list_to_set_cons. cbn [entry_state fst].
      by rewrite (assoc_L (∪)), (comm_L (∪) _ {[next_state st t]}). }
    split.
    { rewrite fmap_cons. apply NoDup_cons. split; [|done].
      intros (e & Heq & He)%list_elem_of_fmap. destruct (Hnew _ He) as [Hn _].
      destruct Hn. rewrite <- Heq. by apply elem_of_union_l, elem_of_singleton. }
    intros e [->|He]%elem_of_cons.
    + split; [done|]. exists t. split; [apply list_elem_of_here|done].
    + destruct (Hnew _ He) as [Hn (t' & ? & ?)]. split.
      * intros ?. destruct Hn. by apply elem_of_union_r.
      * exists t'. split; [by apply list_elem_of_further|done].
Qed.

Lemma for_transitions_found target st steps path ts q seen p :
  for_transitions target st steps path ts q seen = Found p →
  ∃ t, t ∈ ts ∧ p = path ++ [t] ∧ next_state st t = target.
Proof.
  revert q seen. induction ts as [|t ts IH]; intros q seen Hfor.
  - by rewrite for_transitions_nil in Hfor.
  - rewrite for_transitions_cons in Hfor.
    assert (∀ q seen, for_transitions target st steps path ts q seen = Found p →
      ∃ t', t' ∈ t :: ts ∧ p = path ++ [t'] ∧ next_state st t' = target) as IH'.
    { intros ?? (t' & ? & ?)%IH. exists t'. split; [by apply list_elem_of_further|done]. }
    destruct (decide (next_state st t ∈ seen)); [by eapply IH'|].
    destruct (decide (next_state st t = target)); [|by eapply IH'].
    injection Hfor as <-. exists t. split; [apply list_elem_of_here|done].
Qed.

Lemma while_loop_return set_iter fuel target q seen p :
  while_loop set_iter fuel target q seen = Return p →
  ∃ prefix t, p = prefix ++ [t].
Proof.
  revert q seen. induction fuel as [|fuel IH]; intros q seen Hret.
  - destruct q; [by rewrite while_loop_nil in Hret|by rewrite while_loop_out in Hret].
  - destruct q as [|[[st steps] path] q]; [by rewrite while_loop_nil in Hret|].
    rewrite while_loop_step in Hret.
    destruct (TRANSITIONS !! state_position st) as [ts|]; [|done].
    destruct (for_transitions target st steps path (set_iter ts) q seen)
      as [p'|q' seen'] eqn:Hfor; [|by eapply IH].
    injection Hret as ->.
    apply for_transitions_found in Hfor as (t & _ & -> & _). by exists path, t.
Qed.

(** The configurations of [loop_config] are those [while_loop] runs through:
    after as many iterations as it took to reach one, the run from the
    initial configuration continues from it. *)
Lemma loop_config_run set_iter origin target q seen :
  loop_config set_iter origin target q seen →
  ∃ k, ∀ fuel,
    while_loop set_iter (k + fuel) target [(origin, 0, [])] {[origin]}
    = while_loop set_iter fuel target q seen.
Proof.
  induction 1 as [|st steps path q seen ts q' seen' _ [k IH] Hts Hfor].
  - by exists 0%nat.
  - exists (S k). intros fuel.
    replace (S k + fuel)%nat with (k + S fuel)%nat by lia.
    by rewrite IH, while_loop_step, Hts, Hfor.
Qed.

(** ** The search: results *)

(** The sixteen moves that solve the puzzle from its default position. *)
Lemma default_puzzle_path :
  replay default_origin
    [((2, X), -1, 1); ((2, Z), 0, -1); ((5, Z), -1, 1); ((4, Z), -1, 1);
     ((3, Z), -1, 1); ((3, Y), 0, 1); ((1, Y), -1, 1); ((1, X), 0, -1);
     ((2, X), -1, 1); ((2, Z), 0, -1); ((5, Z), -1, 1); ((4, Z), -1, 1);
     ((3, Z), -1, 1); ((3, Y), 0, 1); ((6, Y), 1, 1); ((6, X), 0, 1)]
  = Some default_target.
Proof. vm_compute. reflexivity. Qed.

Lemma elements_perm (ts : gset transition) : elements ts ≡ₚ elements ts.
Proof. reflexivity. Qed.

Lemma solve_no_out_of_fuel set_iter origin target fuel :
  (∀ ts, set_iter ts ≡ₚ elements ts) →
  (size (universe origin) ≤ fuel)%nat →
  solve_within set_iter fuel origin target ≠ OutOfFuel.
Proof.
  intros Hperm Hfuel Hout.
  pose proof (solve_within_spec set_iter Hperm origin target fuel) as Hspec.
  rewrite Hout in Hspec. cbn [outcome_spec] in Hspec. lia.
Qed.

Lemma solve_within_stable set_iter origin target fuel fuel' :
  (∀ ts, set_iter ts ≡ₚ elements ts) →
  (size (universe origin) ≤ fuel)%nat → (fuel ≤ fuel')%nat →
  solve_within set_iter fuel' origin target = solve_within set_iter fuel origin target.
Proof.
  intros Hperm Hfuel Hle. apply while_loop_more_fuel; [done|].
  by apply solve_no_out_of_fuel.
Qed.

(** C1. Whenever [solve] returns a path, the path leads from the origin to
    the target through transitions of the table, and no sequence of legal
    transitions from the origin to the target is shorter. *)
Theorem solve_returns_shortest_path set_iter origin target fuel path :
  (∀ ts, set_iter ts ≡ₚ elements ts) →
  solve_within set_iter fuel origin target = Return path →
  replay origin path = Some target ∧
  ∀ path', replay origin path' = Some target → (length path ≤ length path')%nat.
Proof.
  intros Hperm Hret.
  pose proof (solve_within_spec set_iter Hperm origin target fuel) as Hspec.
  rewrite Hret in Hspec. apply Hspec.
Qed.

Lemma solve_returns_shortest_path_witness :
  replay default_origin
    [((2, X), -1, 1); ((2, Z), 0, -1); ((5, Z), -1, 1); ((4, Z), -1, 1);
     ((3, Z), -1, 1); ((3, Y), 0, 1); ((1, Y), -1, 1); ((1, X), 0, -1);
     ((2, X), -1, 1); ((2, Z), 0, -1); ((5, Z), -1, 1); ((4, Z), -1, 1);
     ((3, Z), -1, 1); ((3, Y), 0, 1); ((6, Y), 1, 1); ((6, X), 0, 1)]
    = Some default_target ∧
  ∀ path', replay default_origin path' = Some default_target →
           (16 ≤ length path')%nat.
Proof.
  apply (solve_returns_shortest_path elements default_origin default_target 121).
  - intros ts. reflexivity.
  - vm_compute. reflexivity.
Defined.

(** C2. Whenever [solve] returns a path, replaying it from the origin, each
    transition taken from the table entry of the current position and applied
    with the update of [next_state] (polarity times [polarity_mult], tooth
    plus [tooth_incr] times polarity modulo 5, position of the transition),
    ends exactly in the target. *)
Theorem solve_path_replays set_iter origin target fuel path :
  (∀ ts, set_iter ts ≡ₚ elements ts) →
  solve_within set_iter fuel origin target = Return path →
  replay origin path = Some target ∧
  (∀ s t, next_state s t =
     (transition_target t,
      (state_tooth s + transition_tooth_incr t * state_polarity s) `mod` 5,
      state_polarity s * transition_polarity_mult t)) ∧
  (∀ prefix t rest, path = prefix ++ t :: rest →
     ∃ s ts, replay origin prefix = Some s ∧
             TRANSITIONS !! state_position s = Some ts ∧ t ∈ ts).
Proof.
  intros Hperm Hret.
  pose proof (solve_within_spec set_iter Hperm origin target fuel) as Hspec.
  rewrite Hret in Hspec. destruct Hspec as [_ [Hrep _]].
  split; [done|]. split.
  { by intros [[? ?] ?] [[? ?] ?]. }
  intros prefix t rest ->. rewrite replay_app in Hrep.
  destruct (replay origin prefix) as [s|]; [|done].
  exists s. change (replay s (t :: rest) = Some target) in Hrep.
  rewrite replay_cons in Hrep. case_decide as Hl; [|done].
  destruct Hl as (ts & ? & ?). by exists ts.
Qed.

Lemma solve_path_replays_witness :
  replay default_origin [((1, Y), 0, -1)] = Some ((1, Y), 0, -1) ∧
  (∀ s t, next_state s t =
     (transition_target t,
      (state_tooth s + transition_tooth_incr t * state_polarity s) `mod` 5,
      state_polarity s * transition_polarity_mult t)) ∧
  (∀ prefix t rest, [((1, Y), 0, -1)] = prefix ++ t :: rest →
     ∃ s ts, replay default_origin prefix = Some s ∧
             TRANSITIONS !! state_position s = Some ts ∧ t ∈ ts).
Proof.
  apply (solve_path_replays elements default_origin ((1, Y), 0, -1) 121).
  - intros ts. reflexivity.
  - vm_compute. reflexivity.
Defined.

(** C3. With the origin equal to the target (and its position in the table)
    [solve] does not return the empty path: the target is only compared with
    successor states, the origin is already in [seen_states], and the search
    runs dry and raises the no-solution [ValueError]. *)
Theorem solve_same_state_raises set_iter s :
  (∀ ts, set_iter ts ≡ₚ elements ts) →
  valid_position (state_position s) →
  solve set_iter s s = Raise no_solution_error.
Proof.
  intros Hperm Hvalid. unfold solve.
  pose proof (solve_within_spec set_iter Hperm s s 121) as Hspec.
  pose proof (universe_size s) as Hsize.
  destruct (solve_within set_iter 121 s s) as [p|e|]; cbn [outcome_spec] in Hspec.
  - destruct Hspec as [Hne [_ Hmin]]. specialize (Hmin [] (replay_nil s)).
    destruct p; [done|]. cbn [length] in Hmin. lia.
  - destruct Hspec as [[-> _]|[_ Hinv]]; [done|]. by destruct Hinv.
  - lia.
Qed.

Lemma solve_same_state_raises_witness :
  solve elements default_target default_target = Raise no_solution_error.
Proof.
  apply (solve_same_state_raises elements default_target).
  - intros ts. reflexivity.
  - apply (bool_decide_unpack _). vm_compute. reflexivity.
Defined.

(** C4. For a dequeued state with a tooth from 0 to 4 and a polarity of 1 or
    -1, the successor computed for any transition has the transition's
    position, the polarity multiplied by [polarity_mult], and the tooth
    [(tooth + tooth_incr * polarity) mod 5], which lies between 0 and 4; the
    [for] loop enqueues and returns successors computed this way only. *)
Theorem successor_state_update target st steps path ts q seen :
  well_formed st →
  (∀ t,
    state_position (next_state st t) = transition_target t ∧
    state_polarity (next_state st t) = state_polarity st * transition_polarity_mult t ∧
    state_tooth (next_state st t)
      = (state_tooth st + transition_tooth_incr t * state_polarity st) `mod` 5 ∧
    0 ≤ state_tooth (next_state st t) ≤ 4) ∧
  match for_transitions target st steps path ts q seen with
  | Found p => ∃ t, t ∈ ts ∧ p = path ++ [t] ∧ next_state st t = target
  | Continue q' seen' =>
      ∃ new, q' = q ++ new ∧
        ∀ e, e ∈ new → ∃ t, t ∈ ts ∧ e = (next_state st t, steps + 1, path ++ [t])
  end.
Proof.
  intros _. split.
  - intros t. rewrite next_state_position, next_state_polarity, next_state_tooth.
    pose proof (Z.mod_pos_bound
      (state_tooth st + transition_tooth_incr t * state_polarity st) 5).
    repeat split; try done; lia.
  - destruct (for_transitions target st steps path ts q seen)
      as [p|q' seen'] eqn:Hfor.
    + by apply for_transitions_found in Hfor.
    + apply for_transitions_enqueues in Hfor as (new & -> & _ & _ & Hnew).
      exists new. split; [done|]. intros e He. by destruct (Hnew _ He).
Qed.

Lemma successor_state_update_witness :
  (∀ t,
    state_position (next_state ((1, X), 0, -1) t) = transition_target t ∧
    state_polarity (next_state ((1, X), 0, -1) t)
      = state_polarity ((1, X), 0, -1) * transition_polarity_mult t ∧
    state_tooth (next_state ((1, X), 0, -1) t)
      = (state_tooth ((1, X), 0, -1)
         + transition_tooth_incr t * state_polarity ((1, X), 0, -1)) `mod` 5 ∧
    0 ≤ state_tooth (next_state ((1, X), 0, -1) t) ≤ 4) ∧
  match for_transitions default_target ((1, X), 0, -1) 0 []
          [((2, X), -1, 1); ((4, X), 1, 1); ((1, Y), 0, -1)] [] {[((1, X), 0, -1)]} with
  | Found p =>
      ∃ t, t ∈ [((2, X), -1, 1); ((4, X), 1, 1); ((1, Y), 0, -1)] ∧
           p = [] ++ [t] ∧ next_state ((1, X), 0, -1) t = default_target
  | Continue q' seen' =>
      ∃ new, q' = [] ++ new ∧
        ∀ e, e ∈ new →
          ∃ t, t ∈ [((2, X), -1, 1); ((4, X), 1, 1); ((1, Y), 0, -1)] ∧
               e = (next_state ((1, X), 0, -1) t, 0 + 1, [] ++ [t])
  end.
Proof.
  apply (successor_state_update default_target ((1, X), 0, -1) 0 []
           [((2, X), -1, 1); ((4, X), 1, 1); ((1, Y), 0, -1)] [] {[((1, X), 0, -1)]}).
  split; [cbn; lia|right; reflexivity].
Defined.

(** C5 (as the code has it). [solve] fails in two ways only, the
    invalid-position error and the no-solution error; both are raised as
    [ValueError], and what tells them apart is the message. *)
Theorem solve_failures_are_value_errors set_iter origin target fuel e :
  (∀ ts, set_iter ts ≡ₚ elements ts) →
  solve_within set_iter fuel origin target = Raise e →
  exc_class e = ValueError ∧
  (e = invalid_position_error (state_position origin) ∨ e = no_solution_error) ∧
  exc_message (invalid_position_error (state_position origin))
    ≠ exc_message no_solution_error.
Proof.
  intros Hperm Hraise.
  pose proof (solve_within_spec set_iter Hperm origin target fuel) as Hspec.
  rewrite Hraise in Hspec. split; [|split].
  - by destruct Hspec as [[-> _]|[-> _]].
  - destruct Hspec as [[-> _]|[-> _]]; [by right|by left].
  - unfold invalid_position_error, no_solution_error, str_position.
    cbn [exc_message String.append]. discriminate.
Qed.

Lemma solve_failures_are_value_errors_witness :
  exc_class no_solution_error = ValueError ∧
  (no_solution_error = invalid_position_error (state_position default_origin) ∨
   no_solution_error = no_solution_error) ∧
  exc_message (invalid_position_error (state_position default_origin))
    ≠ exc_message no_solution_error.
Proof.
  apply (solve_failures_are_value_errors elements default_origin ((6, Z), 0, 1) 121).
  - intros ts. reflexivity.
  - vm_compute. reflexivity.
Defined.

(** The no-solution failure and the invalid-position failure carry the same
    exception class: a caller cannot tell them apart by type. *)
Lemma no_solution_same_class_as_invalid_position :
  solve elements default_origin ((6, Z), 0, 1) = Raise no_solution_error ∧
  solve elements ((7, X), 0, 1) default_target
    = Raise (invalid_position_error (7, X)) ∧
  ¬ (exc_class no_solution_error ≠ exc_class (invalid_position_error (7, X))).
Proof.
  split; [vm_compute; reflexivity|]. split; [vm_compute; reflexivity|].
  intros Hne. by apply Hne.
Qed.

Lemma solve_invalid_origin set_iter origin target fuel :
  ¬ valid_position (state_position origin) →
  solve_within set_iter (S fuel) origin target
    = Raise (invalid_position_error (state_position origin)).
Proof.
  intros Hinv. unfold solve_within. rewrite while_loop_step.
  destruct (TRANSITIONS !! state_position origin) as [ts|] eqn:Hts; [|done].
  destruct Hinv. unfold valid_position. by rewrite Hts.
Qed.

Lemma loop_config_head_valid set_iter origin target st steps path q seen :
  (∀ ts, set_iter ts ≡ₚ elements ts) →
  loop_config set_iter origin target ((st, steps, path) :: q) seen →
  st = origin ∨ valid_position (state_position st).
Proof.
  intros Hperm Hcfg.
  destruct (loop_config_inv set_iter Hperm origin target _ _ Hcfg)
    as [d [_ _ Hf Hq _ _ _]].
  apply Forall_cons in Hq as [[Hs _] _]. cbn [entry_state fst] in Hs.
  destruct (decide (st = origin)) as [|Hne]; [by left|right].
  by destruct (Hf _ Hs Hne).
Qed.

Lemma string_app_nil (t : string) : "" +:+ t = t.
Proof. reflexivity. Qed.

Lemma string_app_cons c (s t : string) : String c s +:+ t = String c (s +:+ t).
Proof. reflexivity. Qed.

Lemma string_app_length_le (s t : string) :
  (String.length t ≤ String.length (s +:+ t))%nat.
Proof.
  induction s as [|c s IH]; [by rewrite string_app_nil|].
  rewrite string_app_cons. cbn [String.length]. lia.
Qed.

(** Two strings that end in suffixes of the same length are equal only if
    the suffixes and what is before them are equal. *)
Lemma string_app_inj_length (s1 s2 t1 t2 : string) :
  String.length t1 = String.length t2 →
  s1 +:+ t1 = s2 +:+ t2 → s1 = s2 ∧ t1 = t2.
Proof.
  revert s2. induction s1 as [|c1 s1 IH]; intros [|c2 s2] Hlen Heq;
    rewrite ?string_app_nil, ?string_app_cons in Heq.
  - done.
  - pose proof (string_app_length_le s2 t2). rewrite Heq in Hlen.
    cbn [String.length] in Hlen. lia.
  - pose proof (string_app_length_le s1 t1). rewrite <- Heq in Hlen.
    cbn [String.length] in Hlen. lia.
  - injection Heq as -> Heq. destruct (IH _ Hlen Heq) as [-> ->]. done.
Qed.

(** The message of the invalid-position error tells the position. *)
Lemma invalid_position_message_inj p p' :
  exc_message (invalid_position_error p) = exc_message (invalid_position_error p') →
  p = p'.
Proof.
  destruct p as [side a], p' as [side' a'].
  unfold invalid_position_error, str_position. cbn [exc_message fst snd].
  intros Heq. apply (inj (String.app "(")) in Heq.
  apply string_app_inj_length in Heq as [Heq _]; [|done].
  apply string_app_inj_length in Heq as [Hside Hrest];
    [|by destruct a, a'].
  apply (inj pretty) in Hside as ->.
  by destruct a, a'.
Qed.

(** C6. When a dequeued state has a position without an entry in the table,
    which can only be the origin, [solve] raises the invalid-position error
    whose message starts with that position; no position with side 7 has an
    entry.  The message is the position as Python prints the tuple, followed
    by the fixed text, so that different positions give different
    messages. *)
Theorem solve_invalid_position set_iter origin target :
  (∀ ts, set_iter ts ≡ₚ elements ts) →
  (¬ valid_position (state_position origin) →
     solve set_iter origin target
       = Raise (invalid_position_error (state_position origin))) ∧
  (∀ st steps path q seen,
     loop_config set_iter origin target ((st, steps, path) :: q) seen →
     TRANSITIONS !! state_position st = None →
     solve set_iter origin target
       = Raise (invalid_position_error (state_position st))) ∧
  (∀ a, ¬ valid_position (7, a)) ∧
  (∀ p, exc_message (invalid_position_error p)
          = str_position p +:+ " is an invalid initial position") ∧
  invalid_position_error (7, X)
    = mk_exception ValueError "(7, 'X') is an invalid initial position" ∧
  invalid_position_error (-3, Z)
    = mk_exception ValueError "(-3, 'Z') is an invalid initial position" ∧
  (∀ p p', exc_message (invalid_position_error p)
             = exc_message (invalid_position_error p') → p = p').
Proof.
  intros Hperm. split; [|split; [|split; [|split; [|split; [|split]]]]].
  - intros Hinv. by apply solve_invalid_origin.
  - intros st steps path q seen Hcfg Hnone.
    assert (¬ valid_position (state_position st)) as Hinv.
    { unfold valid_position. rewrite Hnone. by intros [? ?]. }
    destruct (loop_config_head_valid _ _ _ _ _ _ _ _ Hperm Hcfg) as [->|?]; [|done].
    by apply solve_invalid_origin.
  - intros []; apply (bool_decide_unpack _); vm_compute; reflexivity.
  - done.
  - vm_compute. reflexivity.
  - vm_compute. reflexivity.
  - apply invalid_position_message_inj.
Qed.

Lemma solve_invalid_position_witness :
  solve elements ((7, X), 0, 1) default_target
    = Raise (mk_exception ValueError "(7, 'X') is an invalid initial position").
Proof.
  destruct (solve_invalid_position elements ((7, X), 0, 1) default_target)
    as (Horigin & _ & _ & _ & Hmessage & _).
  - intros ts. reflexivity.
  - rewrite <- Hmessage. apply Horigin.
    apply (bool_decide_unpack _). vm_compute. reflexivity.
Defined.

Lemma loop_config_seen_size set_iter origin target q seen :
  (∀ ts, set_iter ts ≡ₚ elements ts) →
  loop_config set_iter origin target q seen →
  NoDup (entry_state <$> q) ∧ (∀ e, e ∈ q → entry_state e ∈ seen) ∧
  (size seen ≤ size (universe origin))%nat.
Proof.
  intros Hperm Hcfg.
  destruct (loop_config_inv set_iter Hperm origin target _ _ Hcfg)
    as [d [_ Hu _ Hq _ _ Hn]].
  split; [done|]. split; [|by apply subseteq_size].
  intros e He. rewrite Forall_forall in Hq. by destruct (Hq _ He).
Qed.

(** C7. [solve] terminates on every pair of states: 121 iterations of the
    [while] loop always suffice, 120 when the origin is one of the 12 x 5 x 2
    states of the table, and the outcome is then a path or one of the two
    errors.  At every loop test the queued states are distinct and in
    [seen_states], which never holds more states than that bound, and the
    [for] loop enqueues only states that were not in [seen_states] and adds
    them to it: no state is enqueued twice. *)
Theorem solve_terminates set_iter origin target :
  (∀ ts, set_iter ts ≡ₚ elements ts) →
  ((∃ path, solve set_iter origin target = Return path) ∨
   solve set_iter origin target
     = Raise (invalid_position_error (state_position origin)) ∨
   solve set_iter origin target = Raise no_solution_error) ∧
  (∀ fuel, (121 ≤ fuel)%nat →
     solve_within set_iter fuel origin target = solve set_iter origin target) ∧
  (valid_position (state_position origin) → 0 ≤ state_tooth origin ≤ 4 →
   ∀ fuel, (120 ≤ fuel)%nat →
     solve_within set_iter fuel origin target = solve set_iter origin target) ∧
  (∀ q seen, loop_config set_iter origin target q seen →
     NoDup (entry_state <$> q) ∧ (∀ e, e ∈ q → entry_state e ∈ seen) ∧
     (size seen ≤ 121)%nat ∧
     (valid_position (state_position origin) → 0 ≤ state_tooth origin ≤ 4 →
      (size seen ≤ 120)%nat)) ∧
  (∀ st steps path ts q seen q' seen',
     for_transitions target st steps path ts q seen = Continue q' seen' →
     ∃ new, q' = q ++ new ∧
            seen' = list_to_set (entry_state <$> new) ∪ seen ∧
            NoDup (entry_state <$> new) ∧
            ∀ e, e ∈ new → entry_state e ∉ seen).
Proof.
  intros Hperm. pose proof (universe_size origin) as Hsize.
  split; [|split; [|split; [|split]]].
  - unfold solve.
    pose proof (solve_within_spec set_iter Hperm origin target 121) as Hspec.
    destruct (solve_within set_iter 121 origin target) as [p|e|];
      cbn [outcome_spec] in Hspec.
    + left. by exists p.
    + right. destruct Hspec as [[-> _]|[-> _]]; [by right|by left].
    + lia.
  - intros fuel Hfuel. unfold solve. apply solve_within_stable; [done|lia|done].
  - intros Hvalid Htooth fuel Hfuel.
    pose proof (universe_size_in_range origin Hvalid Htooth) as Hsize'.
    unfold solve.
    rewrite (solve_within_stable set_iter origin target 120 fuel) by done.
    symmetry. apply solve_within_stable; [done|done|lia].
  - intros q seen Hcfg.
    destruct (loop_config_seen_size _ _ _ _ _ Hperm Hcfg) as (Hn & Hq & Hs).
    split; [done|]. split; [done|]. split; [lia|].
    intros Hvalid Htooth.
    pose proof (universe_size_in_range origin Hvalid Htooth). lia.
  - intros st steps path ts q seen q' seen' Hfor.
    apply for_transitions_enqueues in Hfor as (new & ? & ? & ? & Hnew).
    exists new. split; [done|]. split; [done|]. split; [done|].
    intros e He. by destruct (Hnew _ He).
Qed.

Lemma solve_terminates_witness :
  solve_within elements 120 default_origin default_origin
    = solve elements default_origin default_origin.
Proof.
  destruct (solve_terminates elements default_origin default_origin)
    as (_ & _ & Hstable & _).
  - intros ts. reflexivity.
  - apply Hstable.
    + apply (bool_decide_unpack _). vm_compute. reflexivity.
    + cbn. lia.
    + lia.
Defined.

(** C8. The table has 12 entries, each with one to three transitions, and
    the position every transition leads to is again a key of the table: a
    search from an origin whose position is in the table never dequeues a
    state whose position is missing and never raises the invalid-position
    error. *)
Theorem transition_table_shape :
  size TRANSITIONS = 12%nat ∧
  (∀ p ts, TRANSITIONS !! p = Some ts → (1 ≤ size ts ≤ 3)%nat) ∧
  (∀ p ts t, TRANSITIONS !! p = Some ts → t ∈ ts →
     valid_position (transition_target t)) ∧
  (∀ set_iter origin target,
     (∀ ts, set_iter ts ≡ₚ elements ts) →
     valid_position (state_position origin) →
     (∀ st steps path q seen,
        loop_config set_iter origin target ((st, steps, path) :: q) seen →
        valid_position (state_position st)) ∧
     (∀ fuel e, solve_within set_iter fuel origin target = Raise e →
        e = no_solution_error)).
Proof.
  split; [apply TRANSITIONS_size|]. split; [|split].
  - intros p ts Hts. by destruct (TRANSITIONS_ok _ _ Hts).
  - intros p ts t Hts Ht. destruct (TRANSITIONS_ok _ _ Hts) as [_ Hall].
    by destruct (Hall _ Ht).
  - intros set_iter origin target Hperm Hvalid. split.
    + intros st steps path q seen Hcfg.
      by destruct (loop_config_head_valid _ _ _ _ _ _ _ _ Hperm Hcfg) as [->|?].
    + intros fuel e Hraise.
      pose proof (solve_within_spec set_iter Hperm origin target fuel) as Hspec.
      rewrite Hraise in Hspec. by destruct Hspec as [[-> _]|[_ ?]].
Qed.

Lemma transition_table_shape_witness :
  (1 ≤ size ({[ ((6, Y), 0, 1)%Z ]} : gset transition) ≤ 3)%nat ∧
  valid_position (transition_target ((6, Y), 0, 1)) ∧
  valid_position (state_position default_origin).
Proof.
  destruct transition_table_shape as (_ & Hsize & Htarget & Hsearch).
  split; [|split].
  - apply (Hsize (6, X)). vm_compute. reflexivity.
  - apply (Htarget (6, X) {[ ((6, Y), 0, 1) ]}).
    + vm_compute. reflexivity.
    + by apply elem_of_singleton.
  - destruct (Hsearch elements default_origin default_target) as [Hhead _].
    + intros ts. reflexivity.
    + apply (bool_decide_unpack _). vm_compute. reflexivity.
    + apply (Hhead default_origin 0 [] [] {[default_origin]}). constructor.
Defined.

(** No sequence of legal transitions solves the default puzzle in fewer than
    sixteen moves. *)
Lemma default_puzzle_distance path :
  replay default_origin path = Some default_target → (16 ≤ length path)%nat.
Proof.
  pose proof (solve_within_spec elements elements_perm
                default_origin default_target 121) as Hspec.
  assert (solve_within elements 121 default_origin default_target = Return
    [((2, X), -1, 1); ((2, Z), 0, -1); ((5, Z), -1, 1); ((4, Z), -1, 1);
     ((3, Z), -1, 1); ((3, Y), 0, 1); ((1, Y), -1, 1); ((1, X), 0, -1);
     ((2, X), -1, 1); ((2, Z), 0, -1); ((5, Z), -1, 1); ((4, Z), -1, 1);
     ((3, Z), -1, 1); ((3, Y), 0, 1); ((6, Y), 1, 1); ((6, X), 0, 1)]) as Hrun
    by (vm_compute; reflexivity).
  rewrite Hrun in Hspec. destruct Hspec as [_ [_ Hmin]]. apply Hmin.
Qed.

(** C9. From side 1, axis X, tooth 0, polarity +1 to side 6, axis X, tooth 4,
    polarity -1, in whatever order the sets of the table are enumerated,
    [solve] returns a path; the path is not empty, its replay from the origin
    ends in the target, and it has sixteen moves. *)
Theorem solve_default_puzzle set_iter :
  (∀ ts, set_iter ts ≡ₚ elements ts) →
  ∃ path, solve set_iter default_origin default_target = Return path ∧
          path ≠ [] ∧
          replay default_origin path = Some default_target ∧
          length path = 16%nat.
Proof.
  intros Hperm. unfold solve.
  pose proof (solve_within_spec set_iter Hperm default_origin default_target 121)
    as Hspec.
  pose proof (universe_size default_origin) as Hsize.
  destruct (solve_within set_iter 121 default_origin default_target) as [p|e|];
    cbn [outcome_spec] in Hspec.
  - destruct Hspec as [Hne [Hrep Hmin]]. exists p.
    split; [done|]. split; [done|]. split; [done|].
    pose proof (Hmin _ default_puzzle_path) as Hle. cbn [length] in Hle.
    pose proof (default_puzzle_distance _ Hrep). lia.
  - destruct Hspec as [[_ Hno]|[_ Hinv]].
    + by specialize (Hno _ default_puzzle_path).
    + destruct Hinv. apply (bool_decide_unpack _). vm_compute. reflexivity.
  - lia.
Qed.

Lemma solve_default_puzzle_witness :
  ∃ path, solve elements default_origin default_target = Return path ∧
          path ≠ [] ∧
          replay default_origin path = Some default_target ∧
          length path = 16%nat.
Proof.
  apply (solve_default_puzzle elements). intros ts. reflexivity.
Defined.

(** C10. A path returned by [solve] ends with the transition that reached
    the target: it is never empty, whatever the origin and the target. *)
Theorem solve_never_returns_empty set_iter origin target fuel path :
  solve_within set_iter fuel origin target = Return path →
  path ≠ [] ∧ ∃ prefix t, path = prefix ++ [t].
Proof.
  intros Hret. apply while_loop_return in Hret as (prefix & t & ->).
  split; [by destruct prefix|by exists prefix, t].
Qed.

Lemma solve_never_returns_empty_witness :
  [((1, Y), 0, -1)] ≠ [] ∧
  ∃ prefix t, [((1, Y), 0, -1)] = prefix ++ [t].
Proof.
  apply (solve_never_returns_empty elements default_origin ((1, Y), 0, -1) 121).
  vm_compute. reflexivity.
Defined.

(** * Further properties of the table *)

Lemma TRANSITIONS_geometry p ts t :
  TRANSITIONS !! p = Some ts → t ∈ ts → rotation_or_move p t.
Proof.
  revert p ts t.
  assert (map_Forall (λ p (ts : gset transition),
            set_Forall (rotation_or_move p) ts) TRANSITIONS) as Hall.
  { unfold rotation_or_move. apply (bool_decide_unpack _). vm_compute. reflexivity. }
  intros p ts t Hts Ht. by apply (Hall p ts Hts).
Qed.

Lemma TRANSITIONS_inverse p ts t :
  TRANSITIONS !! p = Some ts → t ∈ ts →
  ∃ ts', TRANSITIONS !! transition_target t = Some ts' ∧
         inverse_transition p t ∈ ts'.
Proof.
  revert p ts t.
  assert (map_Forall (λ p (ts : gset transition),
            set_Forall (λ t, legal (transition_target t, 0, 0)
                                   (inverse_transition p t)) ts)
            TRANSITIONS) as Hall.
  { apply (bool_decide_unpack _). vm_compute. reflexivity. }
  intros p ts t Hts Ht. exact (Hall p ts Hts t Ht).
Qed.

Lemma TRANSITIONS_instructions p ts t t' :
  TRANSITIONS !! p = Some ts → t ∈ ts → t' ∈ ts → same_instruction t t' → t = t'.
Proof.
  revert p ts t t'.
  assert (map_Forall (λ _ (ts : gset transition),
            set_Forall (λ t, set_Forall (λ t', same_instruction t t' → t = t') ts) ts)
            TRANSITIONS) as Hall.
  { unfold same_instruction. apply (bool_decide_unpack _). vm_compute. reflexivity. }
  intros p ts t t' Hts Ht Ht'. by apply (Hall p ts Hts).
Qed.

Lemma TRANSITIONS_positions :
  map_Forall (λ (p : position) (_ : gset transition),
    1 ≤ p.1 ≤ 6 ∧ normal_axis p.1 ≠ Some p.2) TRANSITIONS.
Proof. apply (bool_decide_unpack _). vm_compute. reflexivity. Qed.

(** * Reachability *)

Lemma next_state_tooth_range s t : 0 ≤ state_tooth (next_state s t) ≤ 4.
Proof.
  rewrite next_state_tooth.
  pose proof (Z.mod_pos_bound
    (state_tooth s + transition_tooth_incr t * state_polarity s) 5). lia.
Qed.

Lemma legal_inverse s t :
  legal s t → legal (next_state s t) (inverse_transition (state_position s) t).
Proof.
  intros (ts & Hts & Ht). unfold legal. rewrite next_state_position.
  by apply (TRANSITIONS_inverse _ ts).
Qed.

Lemma next_state_inverse s t :
  0 ≤ state_tooth s ≤ 4 → legal s t →
  next_state (next_state s t) (inverse_transition (state_position s) t) = s.
Proof.
  intros Hk Hl. destruct (legal_transition_ok _ _ Hl) as (_ & _ & Hm).
  destruct s as [[p k] c], t as [[p' i] m].
  unfold next_state, inverse_transition, state_position, state_tooth,
    transition_tooth_incr, transition_polarity_mult in *. cbn [fst snd] in *.
  rewrite Z.add_mod_idemp_l by lia.
  destruct Hm as [-> | ->].
  - replace (k + i * c + - i * 1 * (c * 1)) with k by lia.
    rewrite Z.mod_small by lia. do 2 f_equal. lia.
  - replace (k + i * c + - i * -1 * (c * -1)) with k by lia.
    rewrite Z.mod_small by lia. do 2 f_equal. lia.
Qed.

Lemma replay_reverse s p s' :
  0 ≤ state_tooth s ≤ 4 → replay s p = Some s' →
  ∃ p', replay s' p' = Some s ∧ length p' = length p.
Proof.
  revert s. induction p as [|t p IH]; intros s Hk Hr.
  - rewrite replay_nil in Hr. injection Hr as <-. by exists [].
  - rewrite replay_cons in Hr. case_decide as Hl; [|done].
    destruct (IH _ (next_state_tooth_range s t) Hr) as (p' & Hr' & Hlen).
    exists (p' ++ [inverse_transition (state_position s) t]). split.
    + rewrite <- (next_state_inverse s t Hk Hl) at 2.
      apply replay_snoc; [done|]. by apply legal_inverse.
    + rewrite length_app. cbn [length]. lia.
Qed.

Lemma reachable_trans s1 s2 s3 :
  reachable s1 s2 → reachable s2 s3 → reachable s1 s3.
Proof.
  intros [p Hp] [q Hq]. exists (p ++ q). by rewrite replay_app, Hp.
Qed.

(** Every state a replay passes through after its first move has a position
    of the table, a tooth from 0 to 4, and the polarity of the start or its
    opposite. *)
Lemma replay_in_grid s p s' :
  replay s p = Some s' → s' = s ∨ s' ∈ grid (state_polarity s).
Proof.
  intros Hr.
  assert (s' ∈ universe s) as Hin.
  { eapply replay_closed; [|exact Hr|apply universe_origin].
    intros z t. apply universe_closed. }
  unfold universe in Hin. rewrite elem_of_union, elem_of_singleton,
    elem_of_list_to_set in Hin. tauto.
Qed.

Lemma well_formed_in_grid s :
  well_formed s ∧ valid_position (state_position s) ↔ s ∈ grid 1.
Proof. rewrite elem_of_grid. unfold well_formed. tauto. Qed.

Lemma default_origin_reaches s :
  well_formed s → valid_position (state_position s) → reachable default_origin s.
Proof.
  intros Hwf Hvalid.
  assert (Forall (λ t, t = default_origin ∨
                       returns (solve elements default_origin t) = true)
            (grid 1)) as Hall.
  { apply (bool_decide_unpack _). vm_compute. reflexivity. }
  rewrite Forall_forall in Hall.
  destruct (Hall s) as [->|Hret]; [by apply well_formed_in_grid|by exists []|].
  unfold solve in Hret.
  pose proof (solve_within_spec elements elements_perm default_origin s 121) as Hspec.
  destruct (solve_within elements 121 default_origin s) as [p| |]; [|done|done].
  destruct Hspec as [_ [Hrep _]]. by exists p.
Qed.

(** Any two well-formed states with positions of the table are connected. *)
Lemma well_formed_connected s s' :
  well_formed s → valid_position (state_position s) →
  well_formed s' → valid_position (state_position s') →
  reachable s s'.
Proof.
  intros Hwf Hvalid Hwf' Hvalid'.
  apply (reachable_trans _ default_origin); [|by apply default_origin_reaches].
  destruct (default_origin_reaches s Hwf Hvalid) as [p Hp].
  assert (0 ≤ state_tooth default_origin ≤ 4) as Hk
    by (unfold default_origin, state_tooth; cbn [fst snd]; lia).
  destruct (replay_reverse _ _ _ Hk Hp) as (p' & Hp' & _).
  by exists p'.
Qed.

(** * The outcome of the search, case by case *)

Lemma invalid_position_error_neq p : invalid_position_error p ≠ no_solution_error.
Proof.
  unfold invalid_position_error, no_solution_error, str_position.
  cbn [String.append]. discriminate.
Qed.

Lemma replay_cons_valid s t p s' :
  replay s (t :: p) = Some s' → valid_position (state_position s).
Proof.
  rewrite replay_cons. case_decide as Hl; [|done]. intros _.
  by eapply legal_valid_position.
Qed.

Lemma reachable_valid s s' :
  reachable s s' → s' ≠ s → valid_position (state_position s).
Proof.
  intros [[|t p] Hp] Hne.
  - rewrite replay_nil in Hp. by injection Hp as <-.
  - by eapply replay_cons_valid.
Qed.

(** The three outcomes of [solve] and when each occurs. *)
Lemma solve_cases set_iter origin target :
  (∀ ts, set_iter ts ≡ₚ elements ts) →
  (¬ valid_position (state_position origin) ∧
   solve set_iter origin target
     = Raise (invalid_position_error (state_position origin))) ∨
  (valid_position (state_position origin) ∧
   (target = origin ∨ ¬ reachable origin target) ∧
   solve set_iter origin target = Raise no_solution_error) ∨
  (valid_position (state_position origin) ∧
   target ≠ origin ∧ reachable origin target ∧
   ∃ path, solve set_iter origin target = Return path ∧
           path ≠ [] ∧ shortest origin target path).
Proof.
  intros Hperm.
  destruct (decide (valid_position (state_position origin))) as [Hvalid|Hinv].
  2:{ left. split; [done|]. by apply solve_invalid_origin. }
  right. unfold solve.
  pose proof (solve_within_spec set_iter Hperm origin target 121) as Hspec.
  pose proof (universe_size origin) as Hsize.
  destruct (solve_within set_iter 121 origin target) as [p|e|];
    cbn [outcome_spec] in Hspec; [| |lia].
  - right. destruct Hspec as [Hne [Hrep Hmin]].
    split; [done|]. split; [|split; [by exists p|by exists p]].
    intros ->. specialize (Hmin [] (replay_nil origin)).
    destruct p; [done|]. cbn [length] in Hmin. lia.
  - left. destruct Hspec as [[-> Hno]|[_ ?]]; [|done].
    split; [done|]. split; [|done].
    destruct (decide (target = origin)) as [|Hne]; [by left|right].
    intros [p Hp]. by apply Hne, (Hno p).
Qed.

(** X1. [solve] returns a path exactly when the target differs from the
    origin and can be reached from it through legal transitions. *)
Theorem solve_returns_iff_reachable set_iter origin target :
  (∀ ts, set_iter ts ≡ₚ elements ts) →
  (∃ path, solve set_iter origin target = Return path) ↔
  target ≠ origin ∧ reachable origin target.
Proof.
  intros Hperm.
  destruct (solve_cases set_iter origin target Hperm)
    as [[Hinv Hs]|[(_ & Hno & Hs)|(_ & Hne & Hr & p & Hs & _)]].
  - rewrite Hs. split; [by intros [? ?]|]. intros [Hne Hr].
    destruct Hinv. by eapply reachable_valid.
  - rewrite Hs. split; [by intros [? ?]|]. intros [Hne Hr]. by destruct Hno.
  - split; [done|]. intros _. by exists p.
Qed.

Lemma solve_returns_iff_reachable_witness :
  (∃ path, solve elements default_target default_origin = Return path) ↔
  default_origin ≠ default_target ∧ reachable default_target default_origin.
Proof.
  apply (solve_returns_iff_reachable elements default_target default_origin).
  intros ts. reflexivity.
Defined.

(** X2. [solve] raises the no-solution error exactly when the origin has a
    position of the table and the target is the origin itself or cannot be
    reached from it. *)
Theorem solve_no_solution_iff set_iter origin target :
  (∀ ts, set_iter ts ≡ₚ elements ts) →
  solve set_iter origin target = Raise no_solution_error ↔
  valid_position (state_position origin) ∧
  (target = origin ∨ ¬ reachable origin target).
Proof.
  intros Hperm.
  destruct (solve_cases set_iter origin target Hperm)
    as [[Hinv Hs]|[(Hv & Hno & Hs)|(_ & Hne & Hr & p & Hs & _)]]; rewrite Hs.
  - split; [|by intros [? _]].
    intros Heq. exfalso.
    apply (invalid_position_error_neq (state_position origin)). congruence.
  - done.
  - split; [done|]. by intros [_ [?|?]].
Qed.

Lemma solve_no_solution_iff_witness :
  solve elements default_origin ((6, Z), 0, 1) = Raise no_solution_error ↔
  valid_position (state_position default_origin) ∧
  (((6, Z), 0, 1) = default_origin ∨ ¬ reachable default_origin ((6, Z), 0, 1)).
Proof.
  apply (solve_no_solution_iff elements default_origin ((6, Z), 0, 1)).
  intros ts. reflexivity.
Defined.

(** X3. The order in which Python enumerates the sets of the table changes
    neither the kind of outcome, nor the error raised, nor the length of the
    path returned. *)
Theorem solve_order_independent set_iter set_iter' origin target :
  (∀ ts, set_iter ts ≡ₚ elements ts) →
  (∀ ts, set_iter' ts ≡ₚ elements ts) →
  match solve set_iter origin target, solve set_iter' origin target with
  | Return path, Return path' => length path = length path'
  | Raise e, Raise e' => e = e'
  | _, _ => False
  end.
Proof.
  intros Hperm Hperm'.
  destruct (solve_cases set_iter origin target Hperm)
    as [[Hinv Hs]|[(Hv & Hno & Hs)|(Hv & Hne & Hr & p & Hs & _ & _ & Hmin)]];
  destruct (solve_cases set_iter' origin target Hperm')
    as [[Hinv' Hs']|[(Hv' & Hno' & Hs')|(Hv' & Hne' & Hr' & p' & Hs' & _ & Hrep' & Hmin')]];
  rewrite Hs, Hs'; try done; try (by destruct Hno); try (by destruct Hno').
  assert (replay origin p = Some target) as Hrep.
  { pose proof (solve_within_spec set_iter Hperm origin target 121) as Hspec.
    unfold solve in Hs. rewrite Hs in Hspec. apply Hspec. }
  pose proof (Hmin' p Hrep). pose proof (Hmin p' Hrep'). lia.
Qed.

Lemma solve_order_independent_witness :
  match solve elements default_origin default_target,
        solve (λ ts, reverse (elements ts)) default_origin default_target with
  | Return path, Return path' => length path = length path'
  | Raise e, Raise e' => e = e'
  | _, _ => False
  end.
Proof.
  apply (solve_order_independent elements (λ ts, reverse (elements ts))).
  - intros ts. reflexivity.
  - intros ts. apply reverse_Permutation.
Defined.

(** X4. Between any two distinct gear states with positions of the table,
    teeth from 0 to 4 and polarities 1 or -1, [solve] returns a path, and a
    shortest one: every such puzzle has a solution. *)
Theorem solve_every_puzzle set_iter origin target :
  (∀ ts, set_iter ts ≡ₚ elements ts) →
  well_formed origin → valid_position (state_position origin) →
  well_formed target → valid_position (state_position target) →
  target ≠ origin →
  ∃ path, solve set_iter origin target = Return path ∧
          path ≠ [] ∧ shortest origin target path.
Proof.
  intros Hperm Hwf Hvalid Hwf' Hvalid' Hne.
  pose proof (well_formed_connected _ _ Hwf Hvalid Hwf' Hvalid') as Hreach.
  destruct (solve_cases set_iter origin target Hperm)
    as [[Hinv _]|[(_ & Hno & _)|(_ & _ & _ & p & Hs & Hp & Hsh)]].
  - done.
  - by destruct Hno.
  - by exists p.
Qed.

Lemma solve_every_puzzle_witness :
  ∃ path, solve elements ((5, Y), 3, -1) ((2, Z), 1, 1) = Return path ∧
          path ≠ [] ∧ shortest ((5, Y), 3, -1) ((2, Z), 1, 1) path.
Proof.
  apply (solve_every_puzzle elements ((5, Y), 3, -1) ((2, Z), 1, 1)).
  - intros ts. reflexivity.
  - split; [cbn; lia|right; reflexivity].
  - apply (bool_decide_unpack _). vm_compute. reflexivity.
  - split; [cbn; lia|left; reflexivity].
  - apply (bool_decide_unpack _). vm_compute. reflexivity.
  - discriminate.
Defined.

(** X5. From a well-formed origin on the table the no-solution error is
    raised exactly for a target that is the origin itself, or is not a
    well-formed state on the table (position without entry, tooth outside
    0..4, polarity other than 1 and -1). *)
Theorem solve_no_solution_well_formed set_iter origin target :
  (∀ ts, set_iter ts ≡ₚ elements ts) →
  well_formed origin → valid_position (state_position origin) →
  solve set_iter origin target = Raise no_solution_error ↔
  target = origin ∨
  ¬ (well_formed target ∧ valid_position (state_position target)).
Proof.
  intros Hperm Hwf Hvalid.
  assert (reachable origin target → target ≠ origin →
          well_formed target ∧ valid_position (state_position target)) as Hgrid.
  { intros [p Hp] Hne. destruct (replay_in_grid _ _ _ Hp) as [|Hin]; [done|].
    apply elem_of_grid in Hin as (? & ? & Hpol).
    split; [|done]. split; [done|]. destruct Hwf as [_ [Ho|Ho]]; rewrite Ho in Hpol; lia. }
  destruct (solve_cases set_iter origin target Hperm)
    as [[Hinv _]|[(_ & Hno & Hs)|(_ & Hne & Hr & p & Hs & _)]]; [done|..];
    rewrite Hs.
  - split; [intros _|done].
    destruct (decide (target = origin)) as [|Hne]; [by left|right].
    intros [Hwf' Hvalid']. destruct Hno as [|Hno]; [done|].
    apply Hno. by apply well_formed_connected.
  - split; [done|]. intros [?|Hbad]; [done|]. destruct Hbad. by apply Hgrid.
Qed.

Lemma solve_no_solution_well_formed_witness :
  solve elements default_origin ((6, X), 5, 1) = Raise no_solution_error ↔
  ((6, X), 5, 1) = default_origin ∨
  ¬ (well_formed ((6, X), 5, 1) ∧ valid_position (state_position ((6, X), 5, 1))).
Proof.
  apply (solve_no_solution_well_formed elements default_origin ((6, X), 5, 1)).
  - intros ts. reflexivity.
  - split; [cbn; lia|left; reflexivity].
  - apply (bool_decide_unpack _). vm_compute. reflexivity.
Defined.

(** X6. A shortest way back is as long as the shortest way there: when
    [solve] returns a path from an origin with a tooth from 0 to 4 to a
    target, it also returns one from the target to the origin, of the same
    length. *)
Theorem solve_way_back set_iter set_iter' origin target path :
  (∀ ts, set_iter ts ≡ₚ elements ts) →
  (∀ ts, set_iter' ts ≡ₚ elements ts) →
  0 ≤ state_tooth origin ≤ 4 →
  solve set_iter origin target = Return path →
  ∃ path', solve set_iter' target origin = Return path' ∧
           length path' = length path.
Proof.
  intros Hperm Hperm' Hk Hs.
  destruct (solve_cases set_iter origin target Hperm)
    as [[_ Hs1]|[(_ & _ & Hs1)|(_ & Hne & _ & p & Hs1 & _ & Hrep & Hmin)]];
    rewrite Hs in Hs1; try done.
  injection Hs1 as <-.
  destruct (replay_reverse _ _ _ Hk Hrep) as (back & Hback & Hlen).
  destruct (solve_cases set_iter' target origin Hperm')
    as [[Hinv _]|[(_ & Hno & _)|(_ & _ & _ & p' & Hs' & _ & Hrep' & Hmin')]].
  - destruct Hinv. eapply reachable_valid; [by exists back|done].
  - destruct Hno as [|Hno]; [done|]. destruct Hno. by exists back.
  - exists p'. split; [done|].
    assert (0 ≤ state_tooth target ≤ 4) as Hk'.
    { destruct (replay_in_grid _ _ _ Hrep) as [|Hin]; [done|].
      by apply elem_of_grid in Hin as (_ & ? & _). }
    destruct (replay_reverse _ _ _ Hk' Hrep') as (forth & Hforth & Hlen').
    pose proof (Hmin' _ Hback). pose proof (Hmin _ Hforth). lia.
Qed.

Lemma solve_way_back_witness :
  ∃ path', solve elements ((1, Y), 0, -1) default_origin = Return path' ∧
           length path' = length [((1, Y), 0, -1) : transition].
Proof.
  apply (solve_way_back elements elements default_origin ((1, Y), 0, -1)).
  - intros ts. reflexivity.
  - intros ts. reflexivity.
  - cbn. lia.
  - vm_compute. reflexivity.
Defined.

(** X7. The step counter kept in every queue entry is the length of the
    entry's path. *)
Theorem queue_steps_count_path set_iter origin target q seen :
  loop_config set_iter origin target q seen →
  Forall (λ e : entry, e.1.2 = Z.of_nat (length (entry_path e))) q.
Proof.
  induction 1 as [|st steps path q seen ts q' seen' _ IH Hts Hfor].
  - by apply Forall_singleton.
  - apply Forall_cons in IH as [Hhead IH]. cbn [fst snd entry_path] in Hhead.
    apply for_transitions_enqueues in Hfor as (new & -> & _ & _ & Hnew).
    apply Forall_app. split; [done|]. apply Forall_forall. intros e He.
    destruct (Hnew _ He) as [_ (t & _ & ->)]. cbn [fst snd entry_path].
    rewrite length_app. cbn [length]. lia.
Qed.

Lemma queue_steps_count_path_witness :
  Forall (λ e : entry, e.1.2 = Z.of_nat (length (entry_path e)))
    [(((1, Y), 0, -1), 1, [((1, Y), 0, -1)]);
     (((2, X), 4, 1), 1, [((2, X), -1, 1)]);
     (((4, X), 1, 1), 1, [((4, X), 1, 1)])].
Proof.
  apply (queue_steps_count_path elements default_origin default_target _
           ({[((4, X), 1, 1)]} ∪ ({[((2, X), 4, 1)]} ∪
              ({[((1, Y), 0, -1)]} ∪ {[default_origin]})))).
  apply (config_next elements default_origin default_target
           default_origin 0 [] [] {[default_origin]}
           {[ ((2, X), -1, 1); ((4, X), 1, 1); ((1, Y), 0, -1) ]}).
  - constructor.
  - vm_compute. reflexivity.
  - vm_compute. reflexivity.
Defined.

(** X8. A path returned by [solve] never passes through the same state
    twice: a stretch of it that comes back to the state it started from is
    empty.  In particular the path meets the target only at its end and
    never comes back to the origin. *)
Theorem solve_path_has_no_loop set_iter origin target fuel path a b c s :
  (∀ ts, set_iter ts ≡ₚ elements ts) →
  solve_within set_iter fuel origin target = Return path →
  path = a ++ b ++ c →
  replay origin a = Some s → replay origin (a ++ b) = Some s →
  b = [].
Proof.
  intros Hperm Hret -> Ha Hab.
  pose proof (solve_within_spec set_iter Hperm origin target fuel) as Hspec.
  rewrite Hret in Hspec. destruct Hspec as [_ [Hrep Hmin]].
  assert (replay origin (a ++ c) = Some target) as Hshort.
  { rewrite app_assoc, replay_app, Hab in Hrep. by rewrite replay_app, Ha. }
  specialize (Hmin _ Hshort). rewrite !length_app in Hmin.
  destruct b; [done|]. cbn [length] in Hmin. lia.
Qed.

Lemma solve_path_has_no_loop_witness :
  ([] : list transition) = [].
Proof.
  apply (solve_path_has_no_loop elements default_origin ((1, Y), 0, -1) 121
           [((1, Y), 0, -1)] [((1, Y), 0, -1)] [] [] ((1, Y), 0, -1)).
  - intros ts. reflexivity.
  - vm_compute. reflexivity.
  - reflexivity.
  - vm_compute. reflexivity.
  - vm_compute. reflexivity.
Defined.

(** * The geometry of the table *)

Lemma valid_position_side p :
  valid_position p → 1 ≤ p.1 ≤ 6 ∧ normal_axis p.1 ≠ Some p.2.
Proof. intros [ts Hts]. exact (TRANSITIONS_positions p ts Hts). Qed.

Lemma side_axis_valid side a :
  1 ≤ side ≤ 6 → normal_axis side ≠ Some a → valid_position (side, a).
Proof.
  intros Hside Hnormal.
  assert (side = 1 ∨ side = 2 ∨ side = 3 ∨ side = 4 ∨ side = 5 ∨ side = 6)
    as Hcases by lia.
  destruct Hcases as [-> | [-> | [-> | [-> | [-> | ->]]]]], a;
    first [ by destruct Hnormal
          | apply (bool_decide_unpack _); vm_compute; reflexivity ].
Qed.

(** X9. The positions of the table are the sides 1 to 6 of the cube, each
    with the two axes that lie in its plane. *)
Theorem valid_position_iff side a :
  valid_position (side, a) ↔ 1 ≤ side ≤ 6 ∧ normal_axis side ≠ Some a.
Proof.
  split.
  - apply (valid_position_side (side, a)).
  - intros [? ?]. by apply side_axis_valid.
Qed.

(** X10. Every transition of the table is a rotation or a move: a rotation
    keeps the side, the tooth and changes the axis; a move goes to an
    adjacent side (neither the same nor the opposite one) along the same
    axis, keeps the polarity and shifts the tooth by one, forwards or
    backwards according to the polarity. *)
Theorem legal_transition_geometry s t :
  0 ≤ state_tooth s ≤ 4 → legal s t →
  (transition_tooth_incr t = 0 ∧
   (state_position (next_state s t)).1 = (state_position s).1 ∧
   (state_position (next_state s t)).2 ≠ (state_position s).2 ∧
   state_tooth (next_state s t) = state_tooth s) ∨
  ((transition_tooth_incr t = 1 ∨ transition_tooth_incr t = -1) ∧
   normal_axis (state_position (next_state s t)).1
     ≠ normal_axis (state_position s).1 ∧
   (state_position (next_state s t)).2 = (state_position s).2 ∧
   state_polarity (next_state s t) = state_polarity s ∧
   state_tooth (next_state s t)
     = (state_tooth s + transition_tooth_incr t * state_polarity s) `mod` 5).
Proof.
  intros Hk (ts & Hts & Ht).
  rewrite next_state_position, next_state_tooth, next_state_polarity.
  destruct (TRANSITIONS_geometry _ _ _ Hts Ht)
    as [(Hi & Hside & Haxis)|(Hi & Hm & Haxis & Hside)].
  - left. rewrite Hi. split; [done|]. split; [done|]. split; [done|].
    rewrite Z.mul_0_l, Z.add_0_r. apply Z.mod_small. lia.
  - right. rewrite Hm. split; [done|]. split; [done|]. split; [done|].
    split; [lia|done].
Qed.

Lemma legal_transition_geometry_witness :
  (transition_tooth_incr ((2, X), -1, 1) = 0 ∧
   (state_position (next_state default_origin ((2, X), -1, 1))).1
     = (state_position default_origin).1 ∧
   (state_position (next_state default_origin ((2, X), -1, 1))).2
     ≠ (state_position default_origin).2 ∧
   state_tooth (next_state default_origin ((2, X), -1, 1))
     = state_tooth default_origin) ∨
  ((transition_tooth_incr ((2, X), -1, 1) = 1 ∨
    transition_tooth_incr ((2, X), -1, 1) = -1) ∧
   normal_axis (state_position (next_state default_origin ((2, X), -1, 1))).1
     ≠ normal_axis (state_position default_origin).1 ∧
   (state_position (next_state default_origin ((2, X), -1, 1))).2
     = (state_position default_origin).2 ∧
   state_polarity (next_state default_origin ((2, X), -1, 1))
     = state_polarity default_origin ∧
   state_tooth (next_state default_origin ((2, X), -1, 1))
     = (state_tooth default_origin
        + transition_tooth_incr ((2, X), -1, 1) * state_polarity default_origin)
       `mod` 5).
Proof.
  apply (legal_transition_geometry default_origin ((2, X), -1, 1)).
  - cbn. lia.
  - apply (bool_decide_unpack _). vm_compute. reflexivity.
Defined.

(** X11. Every legal transition can be undone: from the state it leads to,
    the table has a transition back to the state it was taken from (the
    tooth being within 0..4). *)
Theorem transition_reversible s t :
  0 ≤ state_tooth s ≤ 4 → legal s t →
  ∃ t', legal (next_state s t) t' ∧ next_state (next_state s t) t' = s.
Proof.
  intros Hk Hl. exists (inverse_transition (state_position s) t).
  split; [by apply legal_inverse|by apply next_state_inverse].
Qed.

Lemma transition_reversible_witness :
  ∃ t', legal (next_state default_origin ((1, Y), 0, -1)) t' ∧
        next_state (next_state default_origin ((1, Y), 0, -1)) t' = default_origin.
Proof.
  apply (transition_reversible default_origin ((1, Y), 0, -1)).
  - cbn. lia.
  - apply (bool_decide_unpack _). vm_compute. reflexivity.
Defined.

(** X12. Legal transitions keep a gear state well formed and on the table:
    whatever is replayed from a well-formed state with a position of the
    table ends in such a state. *)
Theorem replay_keeps_well_formed s path s' :
  well_formed s → valid_position (state_position s) →
  replay s path = Some s' →
  well_formed s' ∧ valid_position (state_position s').
Proof.
  intros Hwf Hvalid Hr.
  destruct (replay_in_grid _ _ _ Hr) as [->|Hin]; [done|].
  apply elem_of_grid in Hin as (? & ? & Hpol).
  split; [|done]. split; [done|].
  destruct Hwf as [_ [Ho|Ho]]; rewrite Ho in Hpol; lia.
Qed.

Lemma replay_keeps_well_formed_witness :
  well_formed ((2, Z), 4, -1) ∧ valid_position (state_position ((2, Z), 4, -1)).
Proof.
  apply (replay_keeps_well_formed default_origin
           [((2, X), -1, 1); ((2, Z), 0, -1)] ((2, Z), 4, -1)).
  - split; [cbn; lia|left; reflexivity].
  - apply (bool_decide_unpack _). vm_compute. reflexivity.
  - vm_compute. reflexivity.
Defined.

(** * The printed instructions *)

Lemma print_step_same i t t' :
  print_step i t = print_step i t' → same_instruction t t'.
Proof.
  destruct t as [[[side a] incr] m], t' as [[[side' a'] incr'] m'].
  unfold print_step, same_instruction, transition_tooth_incr, transition_target.
  cbn [fst snd]. repeat case_decide; intros Heq.
  - by left.
  - do 2 apply (inj (String.app _)) in Heq. cbn [String.app] in Heq. discriminate Heq.
  - do 2 apply (inj (String.app _)) in Heq. cbn [String.app] in Heq. discriminate Heq.
  - right. do 3 apply (inj (String.app _)) in Heq. by apply (inj pretty) in Heq.
Qed.

Lemma print_from_inj k s p p' s1 s2 :
  replay s p = Some s1 → replay s p' = Some s2 →
  imap (λ i, print_step (k + i)) p = imap (λ i, print_step (k + i)) p' →
  p = p'.
Proof.
  revert k s p'. induction p as [|t p IH]; intros k s [|t' p'] Hr Hr' Heq;
    [done|done|done|].
  rewrite !imap_cons in Heq. injection Heq as Hstep Hrest.
  rewrite replay_cons in Hr, Hr'.
  case_decide as Hl; [|done]. case_decide as Hl'; [|done].
  assert (t = t') as <-.
  { destruct Hl as (ts & Hts & Ht), Hl' as (ts' & Hts' & Ht'). simplify_eq.
    eapply TRANSITIONS_instructions; [done..|]. by eapply print_step_same. }
  f_equal. apply (IH (S k) (next_state s t)); [done|done|].
  rewrite (imap_ext _ (λ i, print_step (k + S i)) p),
    (imap_ext _ (λ i, print_step (k + S i)) p'); [done|..];
    intros i x _; f_equal; lia.
Qed.

(** X13. The printed instructions are unambiguous: two sequences of legal
    transitions from the same state that print the same lines are the same
    sequence, although a line names neither the axis nor the tooth. *)
Theorem print_path_unambiguous s path path' s1 s2 :
  replay s path = Some s1 → replay s path' = Some s2 →
  print_path path = print_path path' → path = path'.
Proof.
  intros Hr Hr' Heq. by apply (print_from_inj 0 s path path' s1 s2).
Qed.

Lemma print_path_unambiguous_witness :
  [((2, X), -1, 1); ((2, Z), 0, -1)] = [((2, X), -1, 1); ((2, Z), 0, -1) : transition].
Proof.
  apply (print_path_unambiguous default_origin
           [((2, X), -1, 1); ((2, Z), 0, -1)] [((2, X), -1, 1); ((2, Z), 0, -1)]
           ((2, Z), 4, -1) ((2, Z), 4, -1)).
  - vm_compute. reflexivity.
  - vm_compute. reflexivity.
  - reflexivity.
Defined.

(** X14. What a printed line says of a legal transition: [Rotate] exactly
    when the gear stays on its side (and turns to the other axis of that
    side), and otherwise [Move to side n] with [n], from 1 to 6, the side of
    the state the transition leads to, different from the current side. *)
Theorem print_step_meaning i s t :
  legal s t →
  (print_step i t = "Step " +:+ pretty (i + 1)%nat +:+ ": Rotate" ∧
   (state_position (next_state s t)).1 = (state_position s).1 ∧
   (state_position (next_state s t)).2 ≠ (state_position s).2) ∨
  (print_step i t = "Step " +:+ pretty (i + 1)%nat +:+ ": Move to side "
                      +:+ pretty (state_position (next_state s t)).1 ∧
   1 ≤ (state_position (next_state s t)).1 ≤ 6 ∧
   (state_position (next_state s t)).1 ≠ (state_position s).1 ∧
   (state_position (next_state s t)).2 = (state_position s).2).
Proof.
  intros Hl. pose proof (legal_transition_ok _ _ Hl) as (Hvalid & _ & _).
  apply valid_position_side in Hvalid as [Hside _].
  destruct Hl as (ts & Hts & Ht). rewrite next_state_position.
  destruct (TRANSITIONS_geometry _ _ _ Hts Ht)
    as [(Hi & Hsame & Haxis)|(Hi & _ & Haxis & Hadj)];
    destruct t as [[[side a] incr] m];
    unfold print_step, transition_tooth_incr, transition_target in *;
    cbn [fst snd] in *.
  - left. by rewrite decide_True.
  - right. rewrite decide_False by lia. split; [done|]. split; [done|].
    split; [|done]. intros Heq. by rewrite Heq in Hadj.
Qed.

Lemma print_step_meaning_witness :
  (print_step 0 ((2, X), -1, 1) = "Step " +:+ pretty (0 + 1)%nat +:+ ": Rotate" ∧
   (state_position (next_state default_origin ((2, X), -1, 1))).1
     = (state_position default_origin).1 ∧
   (state_position (next_state default_origin ((2, X), -1, 1))).2
     ≠ (state_position default_origin).2) ∨
  (print_step 0 ((2, X), -1, 1)
     = "Step " +:+ pretty (0 + 1)%nat +:+ ": Move to side "
         +:+ pretty (state_position (next_state default_origin ((2, X), -1, 1))).1 ∧
   1 ≤ (state_position (next_state default_origin ((2, X), -1, 1))).1 ≤ 6 ∧
   (state_position (next_state default_origin ((2, X), -1, 1))).1
     ≠ (state_position default_origin).1 ∧
   (state_position (next_state default_origin ((2, X), -1, 1))).2
     = (state_position default_origin).2).
Proof.
  apply (print_step_meaning 0 default_origin ((2, X), -1, 1)).
  apply (bool_decide_unpack _). vm_compute. reflexivity.
Defined.

(** * The command line and the program *)

Lemma parse_args_origin args :
  (parse_args args).1.1
  = ((initial_side args, initial_axis args), initial_tooth args,
     if decide (initial_polarity args = "T") then 1 else -1).
Proof. reflexivity. Qed.

Lemma parse_args_target args :
  (parse_args args).1.2
  = ((target_side args, target_axis args), target_tooth args,
     if decide (target_polarity args = "T") then 1 else -1).
Proof. reflexivity. Qed.

Lemma parse_args_states_well_formed args :
  choices_ok args →
  well_formed (parse_args args).1.1 ∧ well_formed (parse_args args).1.2.
Proof.
  intros (_ & Hk & _ & _ & Hk' & _).
  rewrite parse_args_origin, parse_args_target.
  unfold well_formed, state_tooth, state_polarity. cbn [fst snd].
  split; (split; [lia|]); case_decide; tauto.
Qed.

(** From a well-formed origin on the table: the no-solution error for a
    target that is the origin or not a well-formed state of the table, a
    shortest path otherwise. *)
Lemma solve_well_formed_cases set_iter origin target :
  (∀ ts, set_iter ts ≡ₚ elements ts) →
  well_formed origin → valid_position (state_position origin) →
  ((target = origin ∨
    ¬ (well_formed target ∧ valid_position (state_position target))) ∧
   solve set_iter origin target = Raise no_solution_error) ∨
  (target ≠ origin ∧ well_formed target ∧
   valid_position (state_position target) ∧
   ∃ path, solve set_iter origin target = Return path ∧
           path ≠ [] ∧ shortest origin target path).
Proof.
  intros Hperm Hwf Hvalid.
  destruct (solve_cases set_iter origin target Hperm)
    as [[Hinv _]|[(_ & Hno & Hs)|(_ & Hne & Hr & p & Hs & Hp & Hsh)]]; [done|..].
  - left. split; [|done].
    destruct (decide (target = origin)) as [|Hne]; [by left|right].
    intros [Hwf' Hvalid']. destruct Hno as [|Hno]; [done|].
    apply Hno. by apply well_formed_connected.
  - right. split; [done|]. destruct Hr as [q Hq].
    destruct (replay_in_grid _ _ _ Hq) as [|Hin]; [done|].
    apply elem_of_grid in Hin as (? & ? & Hpol).
    assert (well_formed target).
    { split; [done|]. destruct Hwf as [_ [Ho|Ho]]; rewrite Ho in Hpol; lia. }
    split; [done|]. split; [done|]. by exists p.
Qed.

(** X15. For arguments within the choices argparse enforces, the two states
    [parse_args] returns are well formed (tooth 0 to 4, polarity 1 for [T]
    and -1 for [F]); each is on the table exactly when its axis is not the
    one its side is perpendicular to, which the choices do not exclude. *)
Theorem parse_args_states args :
  choices_ok args →
  well_formed (parse_args args).1.1 ∧ well_formed (parse_args args).1.2 ∧
  (state_polarity (parse_args args).1.1 = 1 ↔ initial_polarity args = "T") ∧
  (state_polarity (parse_args args).1.2 = 1 ↔ target_polarity args = "T") ∧
  (valid_position (state_position (parse_args args).1.1) ↔
     normal_axis (initial_side args) ≠ Some (initial_axis args)) ∧
  (valid_position (state_position (parse_args args).1.2) ↔
     normal_axis (target_side args) ≠ Some (target_axis args)).
Proof.
  intros Hchoices.
  destruct (parse_args_states_well_formed args Hchoices) as [Hwf Hwf'].
  destruct Hchoices as (Hs & _ & _ & Hs' & _ & _).
  split; [done|]. split; [done|].
  rewrite parse_args_origin, parse_args_target.
  unfold state_polarity, state_position. cbn [fst snd].
  split; [|split; [|split]].
  - case_decide; [done|]. split; [lia|done].
  - case_decide; [done|]. split; [lia|done].
  - split.
    + by intros [_ ?]%valid_position_side.
    + intros ?. apply side_axis_valid; [lia|done].
  - split.
    + by intros [_ ?]%valid_position_side.
    + intros ?. apply side_axis_valid; [lia|done].
Qed.

Lemma parse_args_states_witness :
  well_formed (parse_args (mk_Namespace 6 Z 4 "F" 1 X 0 "T")).1.1 ∧
  well_formed (parse_args (mk_Namespace 6 Z 4 "F" 1 X 0 "T")).1.2 ∧
  (state_polarity (parse_args (mk_Namespace 6 Z 4 "F" 1 X 0 "T")).1.1 = 1 ↔
     initial_polarity (mk_Namespace 6 Z 4 "F" 1 X 0 "T") = "T") ∧
  (state_polarity (parse_args (mk_Namespace 6 Z 4 "F" 1 X 0 "T")).1.2 = 1 ↔
     target_polarity (mk_Namespace 6 Z 4 "F" 1 X 0 "T") = "T") ∧
  (valid_position (state_position (parse_args (mk_Namespace 6 Z 4 "F" 1 X 0 "T")).1.1) ↔
     normal_axis (initial_side (mk_Namespace 6 Z 4 "F" 1 X 0 "T"))
       ≠ Some (initial_axis (mk_Namespace 6 Z 4 "F" 1 X 0 "T"))) ∧
  (valid_position (state_position (parse_args (mk_Namespace 6 Z 4 "F" 1 X 0 "T")).1.2) ↔
     normal_axis (target_side (mk_Namespace 6 Z 4 "F" 1 X 0 "T"))
       ≠ Some (target_axis (mk_Namespace 6 Z 4 "F" 1 X 0 "T"))).
Proof.
  apply (parse_args_states (mk_Namespace 6 Z 4 "F" 1 X 0 "T")).
  unfold choices_ok. cbn. repeat split; try lia; auto.
Defined.

(** X16. What a run of the program does, for arguments within the choices.
    If the initial axis is the one the initial side is perpendicular to, the
    run ends in the invalid-position error.  Otherwise, if the same holds of
    the target or the target equals the initial state, it ends in the
    no-solution error.  Otherwise it prints, after the two lines of
    [parse_args], the instructions of a shortest path, at least one. *)
Theorem main_behaviour set_iter args :
  (∀ ts, set_iter ts ≡ₚ elements ts) →
  choices_ok args →
  (normal_axis (initial_side args) = Some (initial_axis args) →
   main set_iter args
   = Traceback (parse_args args).2
       (invalid_position_error (initial_side args, initial_axis args))) ∧
  (normal_axis (initial_side args) ≠ Some (initial_axis args) →
   normal_axis (target_side args) = Some (target_axis args) ∨
     (parse_args args).1.2 = (parse_args args).1.1 →
   main set_iter args = Traceback (parse_args args).2 no_solution_error) ∧
  (normal_axis (initial_side args) ≠ Some (initial_axis args) →
   normal_axis (target_side args) ≠ Some (target_axis args) →
   (parse_args args).1.2 ≠ (parse_args args).1.1 →
   ∃ path,
     main set_iter args = Exit ((parse_args args).2 ++ print_path path) ∧
     path ≠ [] ∧
     shortest (parse_args args).1.1 (parse_args args).1.2 path).
Proof.
  intros Hperm Hchoices.
  destruct (parse_args_states_well_formed args Hchoices) as [Hwf Hwf'].
  destruct Hchoices as (Hs & _ & _ & Hs' & _ & _).
  assert (state_position (parse_args args).1.1
          = (initial_side args, initial_axis args)) as Hpos by done.
  assert (state_position (parse_args args).1.2
          = (target_side args, target_axis args)) as Hpos' by done.
  assert (main set_iter args
          = match solve set_iter (parse_args args).1.1 (parse_args args).1.2 with
            | Return path => Exit ((parse_args args).2 ++ print_path path)
            | Raise e => Traceback (parse_args args).2 e
            | OutOfFuel => Unfinished
            end) as -> by done.
  split; [|split].
  - intros Hnormal.
    assert (¬ valid_position (state_position (parse_args args).1.1)) as Hinv.
    { rewrite Hpos. by intros [_ ?]%valid_position_side. }
    unfold solve. rewrite (solve_invalid_origin _ _ _ _ Hinv). by rewrite Hpos.
  - intros Hnormal Hbad.
    assert (valid_position (state_position (parse_args args).1.1)) as Hvalid.
    { rewrite Hpos. apply side_axis_valid; [lia|done]. }
    destruct (solve_well_formed_cases set_iter _ (parse_args args).1.2
                Hperm Hwf Hvalid)
      as [[_ ->]|(Hne & _ & Hvalid' & _)]; [done|].
    destruct Hbad as [Hbad|Hbad]; [|done].
    rewrite Hpos' in Hvalid'. by apply valid_position_side in Hvalid' as [_ ?].
  - intros Hnormal Hnormal' Hne.
    assert (valid_position (state_position (parse_args args).1.1)) as Hvalid.
    { rewrite Hpos. apply side_axis_valid; [lia|done]. }
    assert (valid_position (state_position (parse_args args).1.2)) as Hvalid'.
    { rewrite Hpos'. apply side_axis_valid; [lia|done]. }
    destruct (solve_well_formed_cases set_iter _ (parse_args args).1.2
                Hperm Hwf Hvalid)
      as [[[?|Hbad] _]|(_ & _ & _ & p & -> & Hp & Hsh)]; [done|by destruct Hbad|].
    by exists p.
Qed.

Lemma main_behaviour_witness :
  main elements (mk_Namespace 6 Z 4 "F" 1 X 0 "T")
    = Traceback (parse_args (mk_Namespace 6 Z 4 "F" 1 X 0 "T")).2
        (invalid_position_error (6, Z)) ∧
  main elements (mk_Namespace 6 X 4 "F" 6 X 4 "F")
    = Traceback (parse_args (mk_Namespace 6 X 4 "F" 6 X 4 "F")).2
        no_solution_error ∧
  ∃ path,
    main elements (mk_Namespace 1 X 0 "T" 6 X 4 "F")
      = Exit ((parse_args (mk_Namespace 1 X 0 "T" 6 X 4 "F")).2 ++ print_path path) ∧
    path ≠ [] ∧
    shortest (parse_args (mk_Namespace 1 X 0 "T" 6 X 4 "F")).1.1
             (parse_args (mk_Namespace 1 X 0 "T" 6 X 4 "F")).1.2 path.
Proof.
  split; [|split].
  - destruct (main_behaviour elements (mk_Namespace 6 Z 4 "F" 1 X 0 "T"))
      as (Hinvalid & _ & _).
    + intros ts. reflexivity.
    + unfold choices_ok. cbn. repeat split; try lia; auto.
    + apply Hinvalid. reflexivity.
  - destruct (main_behaviour elements (mk_Namespace 6 X 4 "F" 6 X 4 "F"))
      as (_ & Hnone & _).
    + intros ts. reflexivity.
    + unfold choices_ok. cbn. repeat split; try lia; auto.
    + apply Hnone; [discriminate|right; reflexivity].
  - destruct (main_behaviour elements (mk_Namespace 1 X 0 "T" 6 X 4 "F"))
      as (_ & _ & Hpath).
    + intros ts. reflexivity.
    + unfold choices_ok. cbn. repeat split; try lia; auto.
    + apply Hpath; discriminate.
Defined.
